(** * mixesdbsync: the track matcher (normalizer, scorer, strategy cascade)

    A shallow embedding of [mixesdbsync/matcher/normalizer.py],
    [mixesdbsync/matcher/scorer.py] and [mixesdbsync/matcher/strategy.py],
    with the part of [mixesdbsync/spotify/client.py] the cascade calls.

    Modelling conventions.
    - Python [str] values are lists of characters (type [text]).  The
      characters up to 127 are the ASCII characters; a character above 127
      stands for a code point outside ASCII.  What lower-casing, NFKD
      normalisation and the ASCII round trip make of a text is decided by
      the tables of [unicodedata]: it is the operation of the class
      [Unicode], of which only the behaviour on ASCII text is fixed.
    - Python [float] scores are exact rationals ([Q]).
    - The [re] module is a backtracking matcher over a small pattern
      syntax (ordered alternation, greedy and lazy repetition, one capture
      group, the [$] anchor), so every pattern of the source is written
      out as it stands in the source.
    - [rapidfuzz.fuzz] is an external library: its three similarity
      functions are the operations of the class [Fuzz].
    - The Spotify client is a collaborator with a state of its own; the
      cascade runs in a state-and-error monad that logs every search. *)

From Stdlib Require Import Ascii String Arith Bool ZArith QArith Lia Lqa.
From Stdlib Require Import Qminmax Permutation Sorting.Sorted List.
Import ListNotations.

Set Implicit Arguments.
Close Scope Q_scope.
Open Scope nat_scope.

(** ** Text *)

Definition text := list ascii.

Definition str (s : string) : text := list_ascii_of_string s.

Definition code (c : ascii) : nat := nat_of_ascii c.

Definition in_range (lo hi : nat) (c : ascii) : bool :=
  (lo <=? code c)%nat && (code c <=? hi)%nat.

(** [str.isspace] on ASCII: TAB..CR, FS..US and the space. *)
Definition is_space (c : ascii) : bool := in_range 9 13 c || in_range 28 32 c.

Definition is_digit (c : ascii) : bool := in_range 48 57 c.

Definition is_upper (c : ascii) : bool := in_range 65 90 c.

Definition is_lower (c : ascii) : bool := in_range 97 122 c.

(** The class [\w]. *)
Definition is_word (c : ascii) : bool :=
  is_upper c || is_lower c || is_digit c || Ascii.eqb c "_".

Definition is_ascii (c : ascii) : bool := (code c <? 128)%nat.

(** The quote characters: apostrophe, double quote, backtick. *)
Definition is_quote (c : ascii) : bool :=
  Ascii.eqb c "'" || Ascii.eqb c "034" || Ascii.eqb c "`".

Definition lower_char (c : ascii) : ascii :=
  if is_upper c then ascii_of_nat (code c + 32) else c.

(** [str.lower]. *)
Definition lower (s : text) : text := map lower_char s.

Fixpoint lstrip (s : text) : text :=
  match s with
  | c :: t => if is_space c then lstrip t else s
  | [] => []
  end.

(** [str.strip] without argument. *)
Definition strip (s : text) : text := rev (lstrip (rev (lstrip s))).

Fixpoint text_eqb (a b : text) : bool :=
  match a, b with
  | [], [] => true
  | x :: a', y :: b' => Ascii.eqb x y && text_eqb a' b'
  | _, _ => false
  end.

Fixpoint starts_with (p s : text) : bool :=
  match p, s with
  | [], _ => true
  | x :: p', y :: s' => Ascii.eqb x y && starts_with p' s'
  | _ :: _, [] => false
  end.

(** [p in s]. *)
Fixpoint contains (p s : text) : bool :=
  starts_with p s || match s with [] => false | _ :: t => contains p t end.

(** [str.replace old new] for a non-empty [old]: the occurrences are taken
    from the left and do not overlap.  [skip] counts the characters of an
    occurrence still to be passed over. *)
Fixpoint replace_from (old new : text) (skip : nat) (s : text) : text :=
  match s with
  | [] => []
  | c :: t =>
      match skip with
      | S k => replace_from old new k t
      | O => if starts_with old s
             then new ++ replace_from old new (pred (length old)) t
             else c :: replace_from old new 0 t
      end
  end.

Definition replace (old new s : text) : text := replace_from old new 0 s.

(** ** Regular expressions, as the [re] module runs them *)

Module Re.

Inductive re : Type :=
| Eps
| Cls (p : ascii -> bool)
| Seq (a b : re)
| Alt (a b : re)
| Star (r : re)
| LazyStar (r : re)
| Group (r : re)
| Eos.

(** A match in progress: the input left and the content of group 1. *)
Definition cont (A : Type) := text -> option text -> option A.

(** Backtracking in continuation style.  A repetition gives up an
    iteration that consumes nothing, so the length of the input bounds
    the number of iterations. *)
Fixpoint run {A : Type} (r : re) (s : text) (g : option text) (k : cont A)
  : option A :=
  match r with
  | Eps => k s g
  | Cls p =>
      match s with
      | c :: t => if p c then k t g else None
      | [] => None
      end
  | Seq a b => run a s g (fun s' g' => run b s' g' k)
  | Alt a b =>
      match run a s g k with
      | Some x => Some x
      | None => run b s g k
      end
  | Star r1 =>
      (fix loop (n : nat) (s : text) (g : option text) : option A :=
         match n with
         | O => k s g
         | S n' =>
             match run r1 s g
                     (fun s' g' =>
                        if (length s' <? length s)%nat then loop n' s' g'
                        else None) with
             | Some x => Some x
             | None => k s g
             end
         end) (length s) s g
  | LazyStar r1 =>
      (fix loop (n : nat) (s : text) (g : option text) : option A :=
         match k s g with
         | Some x => Some x
         | None =>
             match n with
             | O => None
             | S n' =>
                 run r1 s g
                   (fun s' g' =>
                      if (length s' <? length s)%nat then loop n' s' g'
                      else None)
             end
         end) (length s) s g
  | Group r1 =>
      run r1 s g (fun s' _ => k s' (Some (firstn (length s - length s') s)))
  | Eos =>
      match s with
      | [] => k s g
      | [c] => if Ascii.eqb c "010" then k s g else None
      | _ => None
      end
  end.

(** A match anchored at the head of [s]: the input left after it and
    group 1. *)
Definition match_here (r : re) (s : text) : option (text * option text) :=
  run r s None (fun s' g => Some (s', g)).

Definition match_len (r : re) (s : text) : option nat :=
  match match_here r s with
  | Some (s', _) => Some (length s - length s')
  | None => None
  end.

Record found : Type := Found {
  f_start : nat;         (* match.start() *)
  f_whole : text;        (* match.group(0) *)
  f_group : option text  (* match.group(1) *)
}.

Fixpoint search_from (r : re) (i : nat) (s : text) : option found :=
  match match_here r s with
  | Some (s', g) => Some (Found i (firstn (length s - length s') s) g)
  | None =>
      match s with
      | [] => None
      | _ :: t => search_from r (S i) t
      end
  end.

(** [pattern.search(s)]: the leftmost match. *)
Definition search (r : re) (s : text) : option found := search_from r 0 s.

(** [pattern.sub(repl, s)] with a constant replacement. *)
Fixpoint sub_from (r : re) (repl : text) (skip : nat) (s : text) : text :=
  match s with
  | [] =>
      match skip, match_here r [] with
      | O, Some _ => repl
      | _, _ => []
      end
  | c :: t =>
      match skip with
      | S k => sub_from r repl k t
      | O =>
          match match_len r s with
          | Some (S n) => repl ++ sub_from r repl n t
          | Some O => repl ++ c :: sub_from r repl 0 t
          | None => c :: sub_from r repl 0 t
          end
      end
  end.

Definition sub (r : re) (repl s : text) : text := sub_from r repl 0 s.

(** [re.split(pattern, s)] for a pattern without capture group; a piece
    ends where a non-empty match starts. *)
Fixpoint split_from (r : re) (skip : nat) (cur : text) (s : text) : list text :=
  match s with
  | [] => [rev cur]
  | c :: t =>
      match skip with
      | S k => split_from r k cur t
      | O =>
          match match_len r s with
          | Some (S n) => rev cur :: split_from r n [] t
          | _ => split_from r 0 (c :: cur) t
          end
      end
  end.

Definition split (r : re) (s : text) : list text := split_from r 0 [] s.

(** Pattern syntax. *)
Definition chr (c : ascii) : re := Cls (Ascii.eqb c).

(** A literal character under [re.IGNORECASE]. *)
Definition chr_i (c : ascii) : re :=
  Cls (fun x => Ascii.eqb (lower_char x) (lower_char c)).

Fixpoint lit_with (f : ascii -> re) (s : text) : re :=
  match s with
  | [] => Eps
  | [c] => f c
  | c :: t => Seq (f c) (lit_with f t)
  end.

Definition lit (s : string) : re := lit_with chr (str s).
Definition lit_i (s : string) : re := lit_with chr_i (str s).

Definition opt (r : re) : re := Alt r Eps.
Definition plus (r : re) : re := Seq r (Star r).

Fixpoint alts (rs : list re) : re :=
  match rs with
  | [] => Cls (fun _ => false)
  | [r] => r
  | r :: rest => Alt r (alts rest)
  end.

Fixpoint seqs (rs : list re) : re :=
  match rs with
  | [] => Eps
  | [r] => r
  | r :: rest => Seq r (seqs rest)
  end.

Definition ws : re := Cls is_space.                             (* \s *)
Definition digit : re := Cls is_digit.                          (* \d *)
Definition dot : re := Cls (fun c => negb (Ascii.eqb c "010")). (* . *)
Definition none_of (cs : string) : re :=
  Cls (fun c => negb (existsb (Ascii.eqb c) (str cs))).
Definition one_of (cs : string) : re :=
  Cls (fun c => existsb (Ascii.eqb c) (str cs)).

End Re.

(** ** Data models ([mixesdb/models.py], [spotify/models.py]) *)

Module MixTrack.
Record t : Type := mk {
  position : Z;
  artist : text;
  title : text;
  label : option text;
  remix : option text
}.
End MixTrack.

Module SpotifyTrack.
Record t : Type := mk {
  uri : text;
  id : text;
  name : text;
  artist : text;
  artists : list text;
  album : text;
  duration_ms : Z;
  popularity : Z;
  preview_url : option text;
  external_url : option text
}.
End SpotifyTrack.

Definition is_some {A : Type} (o : option A) : bool :=
  match o with Some _ => true | None => false end.

(** Truth value of a [str | None]: [None] and the empty string are false. *)
Definition truthy (o : option text) : bool :=
  match o with
  | Some (_ :: _) => true
  | _ => false
  end.

Definition dquote : text := ["034"%char].

(** ** [str.lower] and [unicodedata], the first step of the normalizer

    [lower_nfkd_ascii s] is
    [unicodedata.normalize("NFKD", s.lower()).encode("ascii", "ignore").decode("ascii")].
    A code point outside ASCII may be dropped, or be replaced by ASCII
    characters, upper-case ones among them (the trade mark sign becomes
    TM). *)
Class Unicode : Type := {
  lower_nfkd_ascii : text -> text
}.

(** What is known of the step without the tables: the result is ASCII, and
    on ASCII text the step is [lower]. *)
Definition unicode_lawful (U : Unicode) : Prop :=
  (forall s, Forall (fun c => is_ascii c = true) (lower_nfkd_ascii s)) /\
  (forall s, Forall (fun c => is_ascii c = true) s ->
             lower_nfkd_ascii s = lower s).

(** ** [matcher/normalizer.py] *)

Module TrackNormalizer.
Import Re.

Definition REPLACEMENTS : list (text * text) :=
  [ (str " & ", str " and ");
    (str " vs ", str " versus ");
    (str " vs. ", str " versus ");
    (str " ft ", str " featuring ");
    (str " ft. ", str " featuring ");
    (str " feat ", str " featuring ");
    (str " feat. ", str " featuring ");
    (str " w/ ", str " with ") ].

(** The patterns are compiled with [re.IGNORECASE] where they are used. *)
Definition REMOVE_PATTERNS : list re :=
  [ lit_i "(Original Mix)";
    lit_i "(Original)";
    lit_i "(Radio Edit)";
    lit_i "(Extended Mix)";
    lit_i "(Extended)";
    lit_i "(Club Mix)";
    Cls is_quote ].

(** An opening parenthesis, then group 1: characters other than the
    closing parenthesis around one of the keywords Remix, Mix, Edit,
    Version, Dub, Rework, Bootleg; then the closing parenthesis. *)
Definition REMIX_PATTERN : re :=
  seqs [ chr "(";
         Group (seqs [ Star (none_of ")");
                       alts [ lit_i "Remix"; lit_i "Mix"; lit_i "Edit";
                              lit_i "Version"; lit_i "Dub"; lit_i "Rework";
                              lit_i "Bootleg" ];
                       Star (none_of ")") ]);
         chr ")" ].

Section WithUnicode.
Context {U : Unicode}.

Definition normalize (s : text) : text :=
  (* text.lower(), NFKD, encode("ascii", "ignore").decode("ascii") *)
  let s := lower_nfkd_ascii s in
  let s := fold_left (fun s kv => replace (lower (fst kv)) (snd kv) s)
                     REPLACEMENTS s in
  let s := fold_left (fun s p => sub p [] s) REMOVE_PATTERNS s in
  strip (sub (plus ws) (str " ") s).

Definition normalize_for_search (s : text) : text :=
  let s := normalize s in
  (* \[[^\]]+\] *)
  let s := sub (seqs [chr "["; plus (none_of "]"); chr "]"]) [] s in
  let s := sub REMIX_PATTERN [] s in
  (* [^\w\s] *)
  let s := sub (Cls (fun c => negb (is_word c || is_space c))) (str " ") s in
  strip (sub (plus ws) (str " ") s).

End WithUnicode.

(** [\s*[,&+]\s*|\s+(?:and|vs\.?|versus|featuring|feat\.?|ft\.?|with|w/|x)\s+] *)
Definition ARTIST_SEPARATOR : re :=
  Alt (seqs [Star ws; one_of ",&+"; Star ws])
      (seqs [ plus ws;
              alts [ lit_i "and"; Seq (lit_i "vs") (opt (chr "."));
                     lit_i "versus"; lit_i "featuring";
                     Seq (lit_i "feat") (opt (chr "."));
                     Seq (lit_i "ft") (opt (chr "."));
                     lit_i "with"; lit_i "w/"; lit_i "x" ];
              plus ws ]).

Definition nonempty (s : text) : bool :=
  match s with [] => false | _ => true end.

Definition extract_artists (artist_string : text) : list text :=
  let s := lower artist_string in
  let artists := split ARTIST_SEPARATOR s in
  map strip (filter (fun a => nonempty (strip a)) artists).

Definition extract_remix_info (title : text) : text * option text :=
  match search REMIX_PATTERN title with
  | Some m => (strip (sub REMIX_PATTERN [] title), f_group m)
  | None => (title, None)
  end.

End TrackNormalizer.

(** ** [rapidfuzz.fuzz], the similarity functions the scorer calls *)

Class Fuzz : Type := {
  ratio : text -> text -> Q;
  token_set_ratio : text -> text -> Q;
  partial_ratio : text -> text -> Q
}.

(** The library documents every similarity as a number from 0 to 100. *)
Definition fuzz_bounded (F : Fuzz) : Prop :=
  forall a b : text,
    (0 <= ratio a b <= 100 /\
     0 <= token_set_ratio a b <= 100 /\
     0 <= partial_ratio a b <= 100)%Q.

(** ** [matcher/scorer.py] *)

Record ScorerWeights : Type := {
  sw_artist : Q;
  sw_title : Q
}.

Definition default_weights : ScorerWeights :=
  {| sw_artist := 0.4; sw_title := 0.6 |}.

Record TrackScorer : Type := {
  weights : ScorerWeights
}.

Module Scorer.
Import Re.

(** [REMIX_PAREN_PATTERN]: as [TrackNormalizer.REMIX_PATTERN], with the
    keyword Reconstructed added. *)
Definition KEYWORDS : re :=
  alts [ lit_i "Remix"; lit_i "Mix"; lit_i "Edit"; lit_i "Version";
         lit_i "Dub"; lit_i "Rework"; lit_i "Bootleg"; lit_i "Reconstructed" ].

Definition REMIX_PAREN_PATTERN : re :=
  seqs [ chr "(";
         Group (seqs [Star (none_of ")"); KEYWORDS; Star (none_of ")")]);
         chr ")" ].

(** [REMIX_DASH_PATTERN]: spaces, a dash, spaces, then group 1: a lazy run
    of characters, a keyword, and the rest of the line up to the end. *)
Definition REMIX_DASH_PATTERN : re :=
  seqs [ plus ws; chr "-"; plus ws;
         Group (seqs [LazyStar dot; KEYWORDS; Star dot]);
         Eos ].

(** [REMASTER_PATTERN]: a dash form anchored at the end, or a
    parenthetical.  Of the dash class of the source only the hyphen is an
    ASCII character. *)
Definition REMASTER_PATTERN : re :=
  Alt (seqs [ Star ws; chr "-"; Star ws; lit_i "Remaster"; opt (lit_i "ed");
              Star ws; Star digit; Star ws; Eos ])
      (seqs [ chr "("; lit_i "Remaster"; opt (lit_i "ed");
              Star ws; Star digit; chr ")" ]).

Definition _extract_remix (title : text) : option text :=
  let title := strip (sub REMASTER_PATTERN [] title) in
  match search REMIX_PAREN_PATTERN title with
  | Some m => option_map (fun g => strip (lower g)) (f_group m)
  | None =>
      match search REMIX_DASH_PATTERN title with
      | Some m => option_map (fun g => strip (lower g)) (f_group m)
      | None => None
      end
  end.

Definition _remove_remix (title : text) : text :=
  let title := sub REMASTER_PATTERN [] title in
  let title := sub REMIX_PAREN_PATTERN [] title in
  let title := sub REMIX_DASH_PATTERN [] title in
  strip title.

Section WithFuzz.
Context {F : Fuzz} {U : Unicode}.
Open Scope Q_scope.

Definition of_nat (n : nat) : Q := inject_Z (Z.of_nat n).

(** The inner loop of [_score_artist_strict]. *)
Definition best_match (mdb_a : text) (sp_artists_normalized : list text) : Q :=
  fold_left (fun best sp_a => Qmax best (ratio mdb_a sp_a))
            sp_artists_normalized 0.

Definition counts (sp_artists_normalized : list text) (mdb_a : text) : bool :=
  Qle_bool 85 (best_match mdb_a sp_artists_normalized).

Definition _score_artist_strict (mdb_artist : text) (sp_all_artists : list text)
  : Q :=
  let mdb_artists := TrackNormalizer.extract_artists mdb_artist in
  let sp_artists_normalized := map TrackNormalizer.normalize sp_all_artists in
  match mdb_artists with
  | [] => 0
  | _ =>
      let matched_count :=
        fold_left (fun n mdb_a =>
                     if counts sp_artists_normalized mdb_a then S n else n)
                  mdb_artists O in
      if (matched_count =? length mdb_artists)%nat then 100
      else if (0 <? matched_count)%nat
           then (of_nat matched_count / of_nat (length mdb_artists)) * 60
           else 0
  end.

Definition abs_diff (a b : nat) : nat := (a - b) + (b - a).

Definition _score_title_strict (mdb_title sp_title : text) : Q :=
  if text_eqb mdb_title sp_title then 100
  else
    let r := ratio mdb_title sp_title in
    let len_diff := abs_diff (length mdb_title) (length sp_title) in
    if (10 <? len_diff)%nat then r * 0.8 else r.

Definition _score_remix (mdb_remix sp_remix : option text) : Q :=
  if negb (truthy mdb_remix) && negb (truthy sp_remix) then 100
  else if (truthy mdb_remix && negb (truthy sp_remix))
          || (negb (truthy mdb_remix) && truthy sp_remix) then 0
  else
    match mdb_remix, sp_remix with
    | Some m, Some s =>
        if truthy mdb_remix && truthy sp_remix then
          let mdb_norm := TrackNormalizer.normalize m in
          let sp_norm := TrackNormalizer.normalize s in
          let score := token_set_ratio mdb_norm sp_norm in
          let partial_score := partial_ratio mdb_norm sp_norm in
          let score := Qmax score partial_score in
          if Qle_bool 75 score then 100
          else if Qle_bool 60 score then 70
          else 0
        else 0
    | _, _ => 0
    end.

(** The three components that [score_match] aggregates, as they stand
    before the weighted sum: artist, base title, remix. *)
Definition components (self : TrackScorer) (mixesdb_track : MixTrack.t)
  (spotify_track : SpotifyTrack.t) : Q * Q * Q :=
  let mdb_remix := _extract_remix (MixTrack.title mixesdb_track) in
  let sp_remix := _extract_remix (SpotifyTrack.name spotify_track) in
  let mdb_base_title := _remove_remix (MixTrack.title mixesdb_track) in
  let sp_base_title := _remove_remix (SpotifyTrack.name spotify_track) in
  let mdb_artist := TrackNormalizer.normalize (MixTrack.artist mixesdb_track) in
  let mdb_base_title_norm := TrackNormalizer.normalize mdb_base_title in
  let sp_base_title_norm := TrackNormalizer.normalize sp_base_title in
  let artist_score :=
    _score_artist_strict mdb_artist (SpotifyTrack.artists spotify_track) in
  let title_score :=
    _score_title_strict mdb_base_title_norm sp_base_title_norm in
  let remix_score := _score_remix mdb_remix sp_remix in
  let remix_score :=
    if truthy mdb_remix && negb (truthy sp_remix) then 0
    else if negb (truthy mdb_remix) && truthy sp_remix then 0
    else remix_score in
  (artist_score, title_score, remix_score).

Definition artist_component self m s : Q := fst (fst (components self m s)).
Definition title_component self m s : Q := snd (fst (components self m s)).
Definition remix_component self m s : Q := snd (components self m s).

Definition score_match (self : TrackScorer) (mixesdb_track : MixTrack.t)
  (spotify_track : SpotifyTrack.t) : Q :=
  let '(artist_score, title_score, remix_score) :=
    components self mixesdb_track spotify_track in
  artist_score * 0.30 + title_score * 0.40 + remix_score * 0.30.

End WithFuzz.
End Scorer.

(** ** [config.py]: the matcher's configuration *)

Record MatcherConfig : Type := {
  min_score : Q;
  include_low_confidence : bool;
  artist_weight : Q;
  title_weight : Q
}.

Definition default_config : MatcherConfig :=
  {| min_score := 90; include_low_confidence := false;
     artist_weight := 0.4; title_weight := 0.6 |}.

(** ** [matcher/strategy.py] *)

Inductive MatchConfidence : Type := EXACT | HIGH | MEDIUM | LOW | NO_MATCH.

Definition confidence_eqb (a b : MatchConfidence) : bool :=
  match a, b with
  | EXACT, EXACT | HIGH, HIGH | MEDIUM, MEDIUM | LOW, LOW
  | NO_MATCH, NO_MATCH => true
  | _, _ => false
  end.

Definition from_score (score : Q) : MatchConfidence :=
  if Qle_bool 95 score then EXACT
  else if Qle_bool 90 score then HIGH
  else if Qle_bool 80 score then MEDIUM
  else LOW.

(** Position of a tier in the enumeration: the smaller, the better. *)
Definition tier_rank (c : MatchConfidence) : nat :=
  match c with
  | EXACT => 1 | HIGH => 2 | MEDIUM => 3 | LOW => 4 | NO_MATCH => 5
  end.

Definition not_worse (a b : MatchConfidence) : Prop := tier_rank a <= tier_rank b.

Record MatchResult : Type := {
  mixesdb_track : MixTrack.t;
  spotify_track : option SpotifyTrack.t;
  confidence : MatchConfidence;
  score : Q;
  search_strategy : text;
  alternatives : list SpotifyTrack.t
}.

Definition matched (r : MatchResult) : bool :=
  is_some (spotify_track r) && negb (confidence_eqb (confidence r) NO_MATCH).

Definition Qlt_bool (a b : Q) : bool := negb (Qle_bool b a).

(** One call of [SpotifyClient.search_track]. *)
Record Call : Type := {
  call_query : text;
  call_limit : nat
}.

(** [list.sort(key=lambda x: x[1], reverse=True)]: a stable sort, the
    scores descending; of two entries with the same score the one that
    came first stays first. *)
Fixpoint insert_desc {A : Type} (x : A * Q) (l : list (A * Q)) : list (A * Q) :=
  match l with
  | [] => [x]
  | y :: t => if Qlt_bool (snd x) (snd y) then y :: insert_desc x t
              else x :: l
  end.

Fixpoint sort_desc {A : Type} (l : list (A * Q)) : list (A * Q) :=
  match l with
  | [] => []
  | x :: t => insert_desc x (sort_desc t)
  end.

(** The order the sort establishes. *)
Definition desc {A : Type} (x y : A * Q) : Prop := (snd y <= snd x)%Q.

Module TrackMatcher.

Record t : Type := {
  config : MatcherConfig;
  scorer : TrackScorer
}.

Section Cascade.
Context {F : Fuzz} {U : Unicode}.

(** The search collaborator: its state, and [search_track], which either
    raises or answers with a list of tracks. *)
Variable World : Type.
Variable Error : Type.
Variable search_backend :
  text -> nat -> World -> (Error + list SpotifyTrack.t) * World.

Record State : Type := {
  world : World;
  calls : list Call   (* the searches issued so far, the oldest first *)
}.

(** Computations that may raise and that thread the collaborator. *)
Definition M (A : Type) : Type := State -> (Error + A) * State.

Definition ret {A : Type} (x : A) : M A := fun st => (inr x, st).

Definition bind {A B : Type} (c : M A) (f : A -> M B) : M B :=
  fun st =>
    match c st with
    | (inl e, st') => (inl e, st')
    | (inr x, st') => f x st'
    end.

Notation "x <- c ;; k" := (bind c (fun x => k))
  (at level 61, c at next level, right associativity).

(** [SpotifyClient.search_track]. *)
Definition search_track (query : text) (limit : nat) : M (list SpotifyTrack.t) :=
  fun st =>
    let '(res, w) := search_backend query limit (world st) in
    (res, {| world := w;
             calls := calls st ++ [{| call_query := query;
                                      call_limit := limit |}] |}).

(** [SpotifyClient.search_track_exact]. *)
Definition exact_query (artist title : text) : text :=
  str "artist:" ++ dquote ++ artist ++ dquote ++
  str " track:" ++ dquote ++ title ++ dquote.

Definition search_track_exact (artist title : text) (limit : nat)
  : M (list SpotifyTrack.t) :=
  let query := exact_query artist title in
  search_track query limit.

Variable self : t.

Definition _no_match (track : MixTrack.t) (strategy_name : text) : MatchResult :=
  {| mixesdb_track := track;
     spotify_track := None;
     confidence := NO_MATCH;
     score := 0;
     search_strategy := strategy_name;
     alternatives := [] |}.

Definition score_all (track : MixTrack.t) (results : list SpotifyTrack.t)
  : list (SpotifyTrack.t * Q) :=
  map (fun r => (r, Scorer.score_match (scorer self) track r)) results.

Definition _evaluate_results (track : MixTrack.t)
  (results : list SpotifyTrack.t) (strategy_name : text) : MatchResult :=
  match results with
  | [] => _no_match track strategy_name
  | _ =>
      let scored := sort_desc (score_all track results) in
      match scored with
      | [] => _no_match track strategy_name   (* not reached: [scored[0]] *)
      | (best_track, best_score) :: _ =>
          let confidence := from_score best_score in
          if Qlt_bool best_score (min_score (config self))
             && negb (include_low_confidence (config self))
          then
            {| mixesdb_track := track;
               spotify_track := None;
               confidence := NO_MATCH;
               score := best_score;
               search_strategy := strategy_name;
               alternatives := map fst (firstn 5 scored) |}
          else
            {| mixesdb_track := track;
               spotify_track := Some best_track;
               confidence := confidence;
               score := best_score;
               search_strategy := strategy_name;
               alternatives := map fst (firstn 4 (skipn 1 scored)) |}
      end
  end.

Definition _exact_search (track : MixTrack.t) (strategy_name : text)
  : M MatchResult :=
  results <- search_track_exact (MixTrack.artist track) (MixTrack.title track) 5 ;;
  ret (_evaluate_results track results strategy_name).

Definition _normalized_search (track : MixTrack.t) (strategy_name : text)
  : M MatchResult :=
  let artist := TrackNormalizer.normalize_for_search (MixTrack.artist track) in
  let title := TrackNormalizer.normalize_for_search (MixTrack.title track) in
  let query := artist ++ str " " ++ title in
  results <- search_track query 10 ;;
  ret (_evaluate_results track results strategy_name).

Definition _artist_title_search (track : MixTrack.t) (strategy_name : text)
  : M MatchResult :=
  let artists := TrackNormalizer.extract_artists (MixTrack.artist track) in
  let primary_artist :=
    match artists with a :: _ => a | [] => MixTrack.artist track end in
  let clean_title := fst (TrackNormalizer.extract_remix_info (MixTrack.title track)) in
  let clean_title := TrackNormalizer.normalize_for_search clean_title in
  let query := str "artist:" ++ dquote ++ primary_artist ++ dquote ++
               str " " ++ clean_title in
  results <- search_track query 10 ;;
  ret (_evaluate_results track results strategy_name).

(** The query of [_title_only_search]. *)
Definition title_only_query (track : MixTrack.t) : text :=
  let clean_title := fst (TrackNormalizer.extract_remix_info (MixTrack.title track)) in
  str "track:" ++ dquote ++ clean_title ++ dquote.

(** The local re-ranking of [_title_only_search]. *)
Definition rerank (track : MixTrack.t) (results : list SpotifyTrack.t)
  : list SpotifyTrack.t :=
  match results with
  | [] => results
  | _ => map fst (firstn 10 (sort_desc (score_all track results)))
  end.

Definition _title_only_search (track : MixTrack.t) (strategy_name : text)
  : M MatchResult :=
  let query := title_only_query track in
  results <- search_track query 20 ;;
  let results := rerank track results in
  ret (_evaluate_results track results strategy_name).

Definition is_high (r : MatchResult) : bool :=
  match confidence r with
  | EXACT | HIGH => true
  | _ => false
  end.

Definition strategy : Type := text * (MixTrack.t -> text -> M MatchResult).

(** The [for] loop of [find_match], with [best_result] as it stands on
    entry. *)
Fixpoint cascade (strategies : list strategy) (best_result : option MatchResult)
  (track : MixTrack.t) : M MatchResult :=
  match strategies with
  | [] =>
      ret (match best_result with
           | Some b => b
           | None => _no_match track (str "none")
           end)
  | (strategy_name, strategy_func) :: rest =>
      result <- strategy_func track strategy_name ;;
      if is_high result then ret result
      else
        let best_result :=
          match best_result with
          | None => Some result
          | Some b => if Qlt_bool (score b) (score result)
                      then Some result else Some b
          end in
        cascade rest best_result track
  end.

Definition strategies : list strategy :=
  [ (str "exact", _exact_search);
    (str "normalized", _normalized_search);
    (str "artist_title", _artist_title_search);
    (str "title_only", _title_only_search) ].

Definition find_match (track : MixTrack.t) : M MatchResult :=
  cascade strategies None track.

(** The score of the top candidate of a result list, if there is one. *)
Definition top_score (track : MixTrack.t) (results : list SpotifyTrack.t)
  : option Q :=
  match sort_desc (score_all track results) with
  | [] => None
  | (_, best_score) :: _ => Some best_score
  end.

(** The strategies of [pre] run one after the other from [st], none of them
    raising and none of them with a result of confidence EXACT or HIGH:
    the best result and the state afterwards. *)
Fixpoint passes (pre : list strategy) (best_result : option MatchResult)
  (track : MixTrack.t) (st : State) : option (option MatchResult * State) :=
  match pre with
  | [] => Some (best_result, st)
  | (strategy_name, strategy_func) :: rest =>
      match strategy_func track strategy_name st with
      | (inr result, st1) =>
          if is_high result then None
          else
            passes rest
              (match best_result with
               | None => Some result
               | Some b => if Qlt_bool (score b) (score result)
                           then Some result else Some b
               end) track st1
      | (inl _, _) => None
      end
  end.

End Cascade.

Arguments ret [World] {Error A} x _.

End TrackMatcher.

(** The invariant of a result: a candidate is attached exactly when the
    tier is not NO_MATCH. *)
Definition attached_iff_matched (r : MatchResult) : Prop :=
  is_some (spotify_track r) = true <-> confidence r <> NO_MATCH.

(** ** A declarative reading of the patterns

    [matches r s g s' g'] holds when [r] can consume a prefix of [s],
    leaving [s'], and group 1 goes from [g] to [g']. *)

Inductive matches : Re.re -> text -> option text -> text -> option text -> Prop :=
| m_eps s g : matches Re.Eps s g s g
| m_cls (p : ascii -> bool) c t g : p c = true -> matches (Re.Cls p) (c :: t) g t g
| m_seq a b s g s1 g1 s2 g2 :
    matches a s g s1 g1 -> matches b s1 g1 s2 g2 ->
    matches (Re.Seq a b) s g s2 g2
| m_alt_l a b s g s' g' : matches a s g s' g' -> matches (Re.Alt a b) s g s' g'
| m_alt_r a b s g s' g' : matches b s g s' g' -> matches (Re.Alt a b) s g s' g'
| m_star_stop r s g : matches (Re.Star r) s g s g
| m_star_step r s g s1 g1 s2 g2 :
    matches r s g s1 g1 -> matches (Re.Star r) s1 g1 s2 g2 ->
    matches (Re.Star r) s g s2 g2
| m_lazy_stop r s g : matches (Re.LazyStar r) s g s g
| m_lazy_step r s g s1 g1 s2 g2 :
    matches r s g s1 g1 -> matches (Re.LazyStar r) s1 g1 s2 g2 ->
    matches (Re.LazyStar r) s g s2 g2
| m_group r s g s' g' :
    matches r s g s' g' ->
    matches (Re.Group r) s g s' (Some (firstn (length s - length s') s))
| m_eos s g : s = [] \/ s = ["010"%char] -> matches Re.Eos s g s g.

(** ** What the white-space collapse computes

    [squeeze false s] turns every run of white space of [s] into one
    blank; [squeeze true s] does so after dropping the white space at the
    head. *)
Fixpoint squeeze (in_run : bool) (s : text) : text :=
  match s with
  | [] => []
  | c :: t =>
      if is_space c
      then if in_run then squeeze true t else " "%char :: squeeze true t
      else c :: squeeze false t
  end.

(** Number of white-space characters at the head. *)
Fixpoint lead (s : text) : nat :=
  match s with
  | c :: t => if is_space c then S (lead t) else 0
  | [] => 0
  end.

Definition rstrip (s : text) : text := rev (lstrip (rev s)).

(** A normalized text is settled when it has no upper-case letter, no
    replacement key occurs in it and none of the six parenthetical
    edition markers matches in it. *)
Definition settled (y : text) : bool :=
  forallb (fun c => negb (is_upper c)) y
  && forallb (fun kv => negb (contains (lower (fst kv)) y))
             TrackNormalizer.REPLACEMENTS
  && forallb (fun p => negb (is_some (Re.search p y)))
             (firstn 6 TrackNormalizer.REMOVE_PATTERNS).

(** ** A concrete setting for the examples *)

(** Length of a longest common subsequence, row by row.  [prev] is the
    row of the characters of [a] read so far, [diag] and [left] are the
    neighbours of the cell to fill. *)
Fixpoint lcs_row (x : ascii) (b : text) (prev : list nat) (diag left : nat)
  : list nat :=
  match b, prev with
  | y :: b', up :: prev' =>
      let v := if Ascii.eqb x y then S diag else Nat.max up left in
      v :: lcs_row x b' prev' up v
  | _, _ => []
  end.

Definition lcs (a b : text) : nat :=
  last (fold_left (fun row x => lcs_row x b row 0 0) a (map (fun _ => 0) b)) 0.

(** Every cell of a row is at most its column number. *)
Fixpoint le_idx (k : nat) (row : list nat) : Prop :=
  match row with
  | [] => True
  | v :: r => v <= k /\ le_idx (S k) r
  end.

(** The normalised Indel similarity, which rapidfuzz documents as the
    value of [fuzz.ratio]: 100 for two empty strings, and otherwise
    100 * 2 * lcs / (len a + len b). *)
Definition indel_ratio (a b : text) : Q :=
  match (length a + length b)%nat with
  | O => 100
  | S n => (100 * Scorer.of_nat (2 * lcs a b) / Scorer.of_nat (S n))%Q
  end.

(** An instance for the examples.  None of them compares two remix tags,
    so the two tag similarities are never evaluated there; the instance
    sets them to the same function. *)
Definition indel_fuzz : Fuzz :=
  {| ratio := indel_ratio;
     token_set_ratio := indel_ratio;
     partial_ratio := indel_ratio |}.

(** A lawful instance for the examples, which are ASCII texts: it drops
    every character above 127. *)
Definition ascii_unicode : Unicode :=
  {| lower_nfkd_ascii := fun s => filter is_ascii (lower s) |}.

(** A collaborator that never raises and answers every query with the head
    of a fixed catalogue. *)
Definition catalogue_backend (catalogue : list SpotifyTrack.t)
  : text -> nat -> unit -> (text + list SpotifyTrack.t) * unit :=
  fun _ limit w => (inr (firstn limit catalogue), w).

Definition mix_track (artist title : string) : MixTrack.t :=
  MixTrack.mk 1 (str artist) (str title) None None.

Definition catalogue_track (artist name : string) : SpotifyTrack.t :=
  SpotifyTrack.mk (str "spotify:track:1") (str "1") (str name) (str artist)
                  [str artist] (str "") 0 0 None None.

Definition default_scorer : TrackScorer := {| weights := default_weights |}.

Definition default_matcher : TrackMatcher.t :=
  {| TrackMatcher.config := default_config;
     TrackMatcher.scorer := default_scorer |}.

(** [min_score] at its largest admitted value. *)
Definition strict_matcher : TrackMatcher.t :=
  {| TrackMatcher.config :=
       {| min_score := 100; include_low_confidence := false;
          artist_weight := 0.4; title_weight := 0.6 |};
     TrackMatcher.scorer := default_scorer |}.

(** A candidate with three contributing artists. *)
Definition get_lucky : SpotifyTrack.t :=
  SpotifyTrack.mk (str "spotify:track:2") (str "2") (str "Get Lucky")
                  (str "Daft Punk")
                  [str "Daft Punk"; str "Pharrell Williams"; str "Nile Rodgers"]
                  (str "Random Access Memories") 0 0 None None.

Definition start : TrackMatcher.State unit :=
  {| TrackMatcher.world := tt; TrackMatcher.calls := [] |}.

(** ** [mixesdb/models.py] and [spotify/models.py]: mixes and playlists *)

Module Mix.
Record t : Type := mk {
  url : text;
  title : text;
  tracks : list MixTrack.t;
  categories : list text;
  spotify_url : option text;
  soundcloud_url : option text;
  image_url : option text
}.

Definition track_count (self : t) : nat := length (tracks self).
End Mix.

Module SpotifyPlaylist.
Record t : Type := mk {
  id : text;
  name : text;
  url : text;
  track_count : Z;
  owner : text
}.
End SpotifyPlaylist.

(** ** [spotify/client.py]: adding tracks in batches *)

Module SpotifyClient.

(** [range(0, stop, step)], for a positive step. *)
Definition range (stop step : nat) : list nat :=
  map (fun k => k * step) (seq 0 ((stop + step - 1) / step)).

Definition batch_size : nat := 100.

(** [add_tracks_to_playlist]: the lists handed to [playlist_add_items],
    one call after the other. *)
Definition add_tracks_to_playlist (track_uris : list text) : list (list text) :=
  map (fun i => firstn batch_size (skipn i track_uris))
      (range (length track_uris) batch_size).

End SpotifyClient.

(** ** [sync/engine.py] *)

Module SyncResult.
Record t : Type := mk {
  mix : Mix.t;
  matched_tracks : list MatchResult;
  unmatched_tracks : list MatchResult;
  playlist : option SpotifyPlaylist.t;
  error : option text
}.

Definition total_tracks (self : t) : nat :=
  length (matched_tracks self) + length (unmatched_tracks self).

Definition match_rate (self : t) : Q :=
  if (total_tracks self =? 0)%nat then 0
  else (inject_Z (Z.of_nat (length (matched_tracks self)))
        / inject_Z (Z.of_nat (total_tracks self)))%Q.

Definition success (self : t) : bool :=
  negb (is_some (error self)) && is_some (playlist self).
End SyncResult.

Module SyncEngine.
Section Engine.
Context {F : Fuzz} {U : Unicode}.

(** The collaborators: the search behind the matcher, the fetch of a mix
    and the creation of a playlist.  Each of them either raises or
    answers; [describe] is the text of an error. *)
Variable World : Type.
Variable Error : Type.
Variable search_backend :
  text -> nat -> World -> (Error + list SpotifyTrack.t) * World.
Variable fetch_mix : text -> World -> (Error + Mix.t) * World.
Variable create_playlist :
  Mix.t -> list MatchResult -> option text -> option bool ->
  World -> (Error + SpotifyPlaylist.t) * World.
Variable describe : Error -> text.
Variable matcher : TrackMatcher.t.

(** A collaborator that issues no search. *)
Definition lift {A : Type} (c : World -> (Error + A) * World)
  : TrackMatcher.M World Error A :=
  fun st =>
    let '(res, w) := c (TrackMatcher.world st) in
    (res, {| TrackMatcher.world := w;
             TrackMatcher.calls := TrackMatcher.calls st |}).

(** The [for] loop of [match_tracks], with [results] as it stands on
    entry. *)
Fixpoint match_loop (tracks : list MixTrack.t) (results : list MatchResult)
  : TrackMatcher.M World Error (list MatchResult) :=
  match tracks with
  | [] => TrackMatcher.ret results
  | track :: rest =>
      TrackMatcher.bind (TrackMatcher.find_match search_backend matcher track)
        (fun result => match_loop rest (results ++ [result]))
  end.

Definition match_tracks (mix : Mix.t)
  : TrackMatcher.M World Error (list MatchResult) :=
  match_loop (Mix.tracks mix) [].

(** The URIs that [create_playlist] adds to the playlist. *)
Definition track_uris (matched_results : list MatchResult) : list text :=
  flat_map (fun r => match spotify_track r with
                     | Some t => [SpotifyTrack.uri t]
                     | None => []
                     end) matched_results.

Definition sync (url : text) (playlist_name : option text)
  (public : option bool) (dry_run : bool)
  : TrackMatcher.M World Error SyncResult.t :=
  fun st =>
    match lift (fetch_mix url) st with
    | (inl e, st1) =>
        (inr {| SyncResult.mix := Mix.mk url (str "Unknown") [] [] None None None;
                SyncResult.matched_tracks := [];
                SyncResult.unmatched_tracks := [];
                SyncResult.playlist := None;
                SyncResult.error :=
                  Some (str "Failed to fetch mix: " ++ describe e) |}, st1)
    | (inr mix, st1) =>
        match match_tracks mix st1 with
        | (inl e, st2) => (inl e, st2)
        | (inr results, st2) =>
            let matched' := filter matched results in
            let unmatched := filter (fun r => negb (matched r)) results in
            if dry_run then
              (inr {| SyncResult.mix := mix;
                      SyncResult.matched_tracks := matched';
                      SyncResult.unmatched_tracks := unmatched;
                      SyncResult.playlist := None;
                      SyncResult.error := None |}, st2)
            else
              match matched' with
              | _ :: _ =>
                  match lift (create_playlist mix matched' playlist_name public) st2 with
                  | (inl e, st3) =>
                      (inr {| SyncResult.mix := mix;
                              SyncResult.matched_tracks := matched';
                              SyncResult.unmatched_tracks := unmatched;
                              SyncResult.playlist := None;
                              SyncResult.error :=
                                Some (str "Failed to create playlist: "
                                      ++ describe e) |}, st3)
                  | (inr playlist, st3) =>
                      (inr {| SyncResult.mix := mix;
                              SyncResult.matched_tracks := matched';
                              SyncResult.unmatched_tracks := unmatched;
                              SyncResult.playlist := Some playlist;
                              SyncResult.error := None |}, st3)
                  end
              | [] =>
                  (inr {| SyncResult.mix := mix;
                          SyncResult.matched_tracks := matched';
                          SyncResult.unmatched_tracks := unmatched;
                          SyncResult.playlist := None;
                          SyncResult.error := None |}, st2)
              end
        end
    end.

End Engine.
End SyncEngine.

(** ** Vocabulary for the properties *)

(** The characters that separate two artists by themselves. *)
Definition is_separator (c : ascii) : bool :=
  existsb (Ascii.eqb c) (str ",&+").

(** The update of [best_result] in the loop of [find_match]. *)
Definition keep_best (best : option MatchResult) (result : MatchResult)
  : option MatchResult :=
  match best with
  | None => Some result
  | Some b => if Qlt_bool (score b) (score result) then Some result else Some b
  end.

(** The error [e] is one that the last search issued before [st] raised. *)
Definition raised_by_search {World Error : Type}
  (search_backend : text -> nat -> World -> (Error + list SpotifyTrack.t) * World)
  (e : Error) (st : TrackMatcher.State World) : Prop :=
  exists query limit w cs,
    fst (search_backend query limit w) = inl e /\
    TrackMatcher.calls st = cs ++ [{| call_query := query; call_limit := limit |}].

(** The candidates a result reports: the attached one, if any, and then
    the alternates. *)
Definition reported (r : MatchResult) : list SpotifyTrack.t :=
  match spotify_track r with
  | Some t => t :: alternatives r
  | None => alternatives r
  end.

(** What every result of one evaluation satisfies. *)
Definition well_formed (self : TrackMatcher.t) (track : MixTrack.t)
  (r : MatchResult) : Prop :=
  mixesdb_track r = track /\
  (0 <= score r <= 100)%Q /\
  (forall t, spotify_track r = Some t ->
     confidence r = from_score (score r) /\
     ((min_score (TrackMatcher.config self) <= score r)%Q \/
      include_low_confidence (TrackMatcher.config self) = true)) /\
  (spotify_track r = None -> confidence r = NO_MATCH) /\
  length (alternatives r) <= 5.

(** A collaborator whose every search raises. *)
Definition failing_backend
  : text -> nat -> unit -> (text + list SpotifyTrack.t) * unit :=
  fun _ _ w => (inl (str "Search failed"), w).

(** A mix of two tracks, a fetch that answers with it and a playlist
    creation that succeeds. *)
Definition levels_mix : Mix.t :=
  Mix.mk (str "https://www.mixesdb.com/w/2011-10-28_-_Avicii_-_Levels")
         (str "Avicii - Levels (2011-10-28)")
         [mix_track "Avicii" "Levels"; mix_track "Eric Prydz" "Opus (Claptone Remix)"]
         [] None None None.

Definition fetched (mix : Mix.t) : text -> unit -> (text + Mix.t) * unit :=
  fun _ w => (inr mix, w).

Definition created
  : Mix.t -> list MatchResult -> option text -> option bool ->
    unit -> (text + SpotifyPlaylist.t) * unit :=
  fun mix _ _ _ w =>
    (inr (SpotifyPlaylist.mk (str "1") (str "MixesDB: " ++ Mix.title mix)
                             (str "") 0 (str "")), w).

(** * Properties *)

(** ** Comparisons of scores *)

Lemma Qle_bool_spec (a b : Q) : BoolSpec (a <= b)%Q (b < a)%Q (Qle_bool a b).
Proof.
  destruct (Qle_bool a b) eqn:E; constructor.
  - now apply Qle_bool_iff.
  - apply Qnot_le_lt. intro H. apply Qle_bool_iff in H. congruence.
Qed.

Lemma Qlt_bool_spec (a b : Q) : BoolSpec (a < b)%Q (b <= a)%Q (Qlt_bool a b).
Proof.
  unfold Qlt_bool. destruct (Qle_bool_spec b a); constructor; assumption.
Qed.

(** ** The confidence tiers *)

(** C5. [from_score] is a total function of the score with the fixed
    boundaries 95, 90 and 80 (EXACT, HIGH, MEDIUM, otherwise LOW), and it is
    monotonic: a score that is not smaller gets a tier that is not worse. *)
Theorem from_score_thresholds_monotone (s1 s2 : Q) :
  ((95 <= s1 -> from_score s1 = EXACT) /\
   (90 <= s1 -> s1 < 95 -> from_score s1 = HIGH) /\
   (80 <= s1 -> s1 < 90 -> from_score s1 = MEDIUM) /\
   (s1 < 80 -> from_score s1 = LOW))%Q /\
  ((s2 <= s1)%Q -> not_worse (from_score s1) (from_score s2)).
Proof.
  unfold from_score, not_worse.
  destruct (Qle_bool_spec 95 s1), (Qle_bool_spec 90 s1), (Qle_bool_spec 80 s1),
    (Qle_bool_spec 95 s2), (Qle_bool_spec 90 s2), (Qle_bool_spec 80 s2);
    (split; [repeat split; intros; first [reflexivity | exfalso; lra]
            | intros; simpl; first [lia | exfalso; lra]]).
Qed.

Lemma from_score_thresholds_monotone_witness :
  from_score 96 = EXACT /\ from_score 92 = HIGH /\ from_score 85 = MEDIUM /\
  from_score 42 = LOW /\ not_worse (from_score 96) (from_score 85).
Proof.
  split; [|split; [|split; [|split]]].
  - apply (from_score_thresholds_monotone 96 85). unfold Qle; simpl; lia.
  - apply (from_score_thresholds_monotone 92 85);
      [unfold Qle | unfold Qlt]; simpl; lia.
  - apply (from_score_thresholds_monotone 85 85);
      [unfold Qle | unfold Qlt]; simpl; lia.
  - apply (from_score_thresholds_monotone 42 85). unfold Qlt; simpl; lia.
  - apply (from_score_thresholds_monotone 96 85). unfold Qle; simpl; lia.
Defined.

Lemma from_score_not_no_match (s : Q) : from_score s <> NO_MATCH.
Proof.
  unfold from_score.
  destruct (Qle_bool 95 s), (Qle_bool 90 s), (Qle_bool 80 s); discriminate.
Qed.

(** ** The descending stable sort *)

Section Sorting.
Variable A : Type.
Implicit Types (x : A * Q) (l : list (A * Q)).

Lemma insert_desc_perm x l : Permutation (insert_desc x l) (x :: l).
Proof.
  induction l as [|y t IH]; simpl; [reflexivity|].
  destruct (Qlt_bool (snd x) (snd y)); [|reflexivity].
  rewrite IH. apply perm_swap.
Qed.

Lemma sort_desc_perm l : Permutation (sort_desc l) l.
Proof.
  induction l as [|x t IH]; simpl; [constructor|].
  rewrite insert_desc_perm. now constructor.
Qed.

Lemma sort_desc_length l : length (sort_desc l) = length l.
Proof. apply Permutation_length, sort_desc_perm. Qed.

Lemma insert_desc_sorted x l :
  StronglySorted desc l -> StronglySorted desc (insert_desc x l).
Proof.
  induction 1 as [|y t Ht IH Hy]; simpl.
  - repeat constructor.
  - destruct (Qlt_bool_spec (snd x) (snd y)) as [Hlt|Hle].
    + constructor; [exact IH|].
      rewrite Forall_forall. intros z Hz.
      apply (Permutation_in _ (insert_desc_perm x t)) in Hz.
      destruct Hz as [<-|Hz].
      * unfold desc. lra.
      * rewrite Forall_forall in Hy. now apply Hy.
    + constructor; [now constructor|].
      constructor; [exact Hle|].
      rewrite Forall_forall in *. intros z Hz.
      specialize (Hy z Hz). unfold desc in *. lra.
Qed.

Lemma sort_desc_sorted l : StronglySorted desc (sort_desc l).
Proof.
  induction l; simpl; [constructor | now apply insert_desc_sorted].
Qed.

(** The head of the sorted list carries a maximal score. *)
Lemma sort_desc_head_max l b rest :
  sort_desc l = b :: rest -> forall x, In x l -> (snd x <= snd b)%Q.
Proof.
  intros E x Hx.
  apply (Permutation_in _ (Permutation_sym (sort_desc_perm l))) in Hx.
  pose proof (sort_desc_sorted l) as S. rewrite E in *.
  inversion S as [|? ? _ Hall]; subst.
  destruct Hx as [<-|Hx]; [lra|].
  rewrite Forall_forall in Hall. now apply Hall.
Qed.

Lemma sort_desc_nonempty l : l <> [] -> sort_desc l <> [].
Proof.
  intros H E. apply H. apply length_zero_iff_nil.
  now rewrite <- sort_desc_length, E.
Qed.

End Sorting.

(** ** The matcher finds only what the pattern describes *)

Lemma run_sound (A : Type) (r : Re.re) :
  forall (s : text) (g : option text) (k : Re.cont A) (x : A),
    Re.run r s g k = Some x ->
    exists s' g', matches r s g s' g' /\ k s' g' = Some x.
Proof.
  induction r as [|p|a IHa b IHb|a IHa b IHb|r IH|r IH|r IH|]; intros s g k x H.
  - exists s, g. split; [constructor | exact H].
  - destruct s as [|c t]; simpl in H; [discriminate|].
    destruct (p c) eqn:Hp; [|discriminate].
    exists t, g. split; [now constructor | exact H].
  - simpl in H. apply IHa in H. destruct H as (s1 & g1 & Ha & H).
    apply IHb in H. destruct H as (s2 & g2 & Hb & H).
    exists s2, g2. split; [econstructor; eassumption | exact H].
  - simpl in H. destruct (Re.run a s g k) eqn:E.
    + inversion H; subst. apply IHa in E. destruct E as (s' & g' & Ha & E).
      exists s', g'. split; [now apply m_alt_l | exact E].
    + apply IHb in H. destruct H as (s' & g' & Hb & H).
      exists s', g'. split; [now apply m_alt_r | exact H].
  - simpl in H. set (n := length s) in H. clearbody n. revert s g H.
    induction n as [|n IHn]; intros s g H.
    + exists s, g. split; [constructor | exact H].
    + match type of H with
      | match ?c with _ => _ end = _ => destruct c eqn:E
      end.
      * inversion H; subst. apply IH in E. destruct E as (s1 & g1 & Hr & E).
        destruct (length s1 <? length s); [|discriminate].
        apply IHn in E. destruct E as (s2 & g2 & Hs & E).
        exists s2, g2. split; [econstructor; eassumption | exact E].
      * exists s, g. split; [constructor | exact H].
  - simpl in H. set (n := length s) in H. clearbody n. revert s g H.
    induction n as [|n IHn]; intros s g H.
    + destruct (k s g) eqn:E; [|discriminate].
      exists s, g. split; [constructor | congruence].
    + destruct (k s g) eqn:E.
      * exists s, g. split; [constructor | congruence].
      * apply IH in H. destruct H as (s1 & g1 & Hr & H).
        destruct (length s1 <? length s); [|discriminate].
        apply IHn in H. destruct H as (s2 & g2 & Hs & H).
        exists s2, g2. split; [econstructor; eassumption | exact H].
  - simpl in H. apply IH in H. destruct H as (s' & g' & Hr & H).
    eexists s', _. split; [econstructor; eassumption | exact H].
  - destruct s as [|c [|d t]]; simpl in H.
    + exists [], g. split; [constructor; now left | exact H].
    + destruct (Ascii.eqb c "010") eqn:Ec; [|discriminate].
      apply Ascii.eqb_eq in Ec. subst c.
      eexists _, g. split; [constructor; now right | exact H].
    + discriminate.
Qed.

Lemma matches_suffix r s g s' g' :
  matches r s g s' g' -> exists pre, s = pre ++ s'.
Proof.
  induction 1;
    repeat match goal with
           | H : exists _, _ |- _ => destruct H as [? H]
           end; subst.
  - now exists [].
  - now exists [c].
  - eexists. now rewrite app_assoc.
  - eauto.
  - eauto.
  - now exists [].
  - eexists. now rewrite app_assoc.
  - now exists [].
  - eexists. now rewrite app_assoc.
  - eauto.
  - now exists [].
Qed.

Lemma firstn_consumed (pre s' : text) :
  firstn (length (pre ++ s') - length s') (pre ++ s') = pre.
Proof.
  rewrite length_app, Nat.add_sub.
  rewrite firstn_app, Nat.sub_diag, firstn_all. simpl. apply app_nil_r.
Qed.

Lemma search_from_sound r i s m :
  Re.search_from r i s = Some m ->
  exists s0 rest, matches r s0 None rest (Re.f_group m).
Proof.
  revert i. induction s as [|c t IH]; intros i H; simpl in H.
  - destruct (Re.match_here r []) as [[s' g]|] eqn:E; [|discriminate].
    inversion H; subst; simpl. apply run_sound in E.
    destruct E as (s1 & g1 & Hm & E). inversion E; subst. eauto.
  - destruct (Re.match_here r (c :: t)) as [[s' g]|] eqn:E.
    + inversion H; subst; simpl. apply run_sound in E.
      destruct E as (s1 & g1 & Hm & E). inversion E; subst. eauto.
    + eauto.
Qed.

(** ** An extracted tag is never empty *)

Lemma is_space_lower_char (c : ascii) : is_space (lower_char c) = is_space c.
Proof. destruct c as [[] [] [] [] [] [] [] []]; reflexivity. Qed.

Lemma chr_i_not_space (k c : ascii) :
  is_space k = false ->
  Ascii.eqb (lower_char c) (lower_char k) = true -> is_space c = false.
Proof.
  intros Hk H. apply Ascii.eqb_eq in H.
  rewrite <- is_space_lower_char, H, is_space_lower_char. exact Hk.
Qed.

Ltac invert_pattern :=
  repeat match goal with
         | H : matches (Re.Seq _ _) _ _ _ _ |- _ => inversion H; subst; clear H
         | H : matches (Re.Alt _ _) _ _ _ _ |- _ => inversion H; subst; clear H
         | H : matches (Re.Cls _) _ _ _ _ |- _ => inversion H; subst; clear H
         | H : matches (Re.Group _) _ _ _ _ |- _ => inversion H; subst; clear H
         | H : matches Re.Eos _ _ _ _ |- _ => inversion H; subst; clear H
         end.

Lemma suffix_cons (c : ascii) (t s' : text) :
  (exists pre, t = pre ++ s') -> exists pre, c :: t = pre ++ s'.
Proof. intros [pre ->]. now exists (c :: pre). Qed.

(** A keyword consumes at least its first letter. *)
Lemma keyword_first_char s g s' g' :
  matches Scorer.KEYWORDS s g s' g' ->
  exists c t, s = c :: t /\ is_space c = false /\ exists pre, t = pre ++ s'.
Proof.
  intros H.
  cbv [Scorer.KEYWORDS Re.alts Re.seqs Re.lit_i Re.lit_with str
       list_ascii_of_string Re.chr_i] in H.
  invert_pattern;
    match goal with
    | H : Ascii.eqb (lower_char ?c) (lower_char ?k) = true
      |- exists _ _, ?c :: _ = _ /\ _ =>
        exists c; eexists; split;
        [reflexivity
        | split; [exact (chr_i_not_space k c eq_refl H)
                 | repeat first [now exists [] | apply suffix_cons]]]
    end.
Qed.

Lemma lstrip_keeps (c : ascii) (s : text) :
  In c s -> is_space c = false -> In c (lstrip s).
Proof.
  intros Hin Hc. induction s as [|d t IH]; simpl; [exact Hin|].
  destruct (is_space d) eqn:Hd; [|exact Hin].
  destruct Hin as [->|Hin]; [congruence | now apply IH].
Qed.

Lemma strip_keeps (c : ascii) (s : text) :
  In c s -> is_space c = false -> In c (strip s).
Proof.
  intros Hin Hc. unfold strip.
  apply -> in_rev. apply lstrip_keeps; [|exact Hc].
  apply -> in_rev. now apply lstrip_keeps.
Qed.

(** Group 1 of both remix patterns holds a keyword, hence a character
    that is no white space. *)
Lemma tag_body_nonspace (lead tail : Re.re) s g s' g' :
  matches (Re.seqs [lead; Scorer.KEYWORDS; Re.Star tail]) s g s' g' ->
  exists c, In c (firstn (length s - length s') s) /\ is_space c = false.
Proof.
  intros H. simpl in H.
  inversion H as [| |? ? ? ? ? ? ? ? Hl Hb| | | | | | | |]; subst.
  inversion Hb as [| |? ? ? ? ? ? ? ? Hk Ht| | | | | | | |]; subst.
  destruct (keyword_first_char Hk) as (c & t & -> & Hc & p2 & ->).
  apply matches_suffix in Hl, Ht.
  destruct Hl as [p1 ->], Ht as [p3 ->].
  exists c. split; [|exact Hc].
  replace (p1 ++ c :: p2 ++ p3 ++ s') with ((p1 ++ c :: p2 ++ p3) ++ s')
    by (rewrite <- !app_assoc; simpl; rewrite <- !app_assoc; reflexivity).
  rewrite firstn_consumed.
  apply in_or_app. right. now left.
Qed.

Lemma group_tag_nonempty (r : Re.re) (lead tail : Re.re)
  (title : text) (m : Re.found) :
  (forall s g s' g', matches r s g s' g' ->
     exists s1 g1 s2 g2, g' = Some (firstn (length s1 - length s2) s1) /\
       matches (Re.seqs [lead; Scorer.KEYWORDS; Re.Star tail]) s1 g1 s2 g2) ->
  Re.search r title = Some m ->
  exists tag, option_map (fun g => strip (lower g)) (Re.f_group m) = Some tag
              /\ tag <> [].
Proof.
  intros Hr Hs. apply search_from_sound in Hs.
  destruct Hs as (s0 & rest & Hm).
  apply Hr in Hm. destruct Hm as (s1 & g1 & s2 & g2 & -> & Hb).
  apply tag_body_nonspace in Hb. destruct Hb as (c & Hin & Hc).
  simpl. eexists. split; [reflexivity|].
  intro E.
  assert (Hl : In (lower_char c) (strip (lower (firstn (length s1 - length s2) s1)))).
  { apply strip_keeps; [now apply in_map | now rewrite is_space_lower_char]. }
  rewrite E in Hl. exact Hl.
Qed.

Lemma _extract_remix_nonempty (title tag : text) :
  Scorer._extract_remix title = Some tag -> tag <> [].
Proof.
  unfold Scorer._extract_remix.
  set (t := strip _).
  destruct (Re.search Scorer.REMIX_PAREN_PATTERN t) as [m|] eqn:E1.
  - intros H.
    destruct (@group_tag_nonempty Scorer.REMIX_PAREN_PATTERN
                (Re.Star (Re.none_of ")")) (Re.none_of ")") t m) as (tag' & E & Hne);
      [|exact E1|congruence].
    intros s g s' g' Hm.
    unfold Scorer.REMIX_PAREN_PATTERN, Re.chr in Hm. simpl in Hm.
    invert_pattern. do 4 eexists. split; [reflexivity|].
    simpl. eapply m_seq; [eassumption | eapply m_seq; eassumption].
  - destruct (Re.search Scorer.REMIX_DASH_PATTERN t) as [m|] eqn:E2;
      [|discriminate].
    intros H.
    destruct (@group_tag_nonempty Scorer.REMIX_DASH_PATTERN
                (Re.LazyStar Re.dot) Re.dot t m) as (tag' & E & Hne);
      [|exact E2|congruence].
    intros s g s' g' Hm.
    unfold Scorer.REMIX_DASH_PATTERN, Re.plus, Re.chr, Re.ws in Hm. simpl in Hm.
    invert_pattern; do 4 eexists; (split; [reflexivity|]);
      simpl; (eapply m_seq; [eassumption | eapply m_seq; eassumption]).
Qed.

Lemma truthy_extract (title : text) :
  truthy (Scorer._extract_remix title) = is_some (Scorer._extract_remix title).
Proof.
  destruct (Scorer._extract_remix title) as [tag|] eqn:E; [|reflexivity].
  apply _extract_remix_nonempty in E. destruct tag; [congruence | reflexivity].
Qed.

(** ** The scorer *)

Section ScorerFacts.
Context {F : Fuzz} {U : Unicode}.
Open Scope Q_scope.

Lemma count_loop (A : Type) (p : A -> bool) (l : list A) (k : nat) :
  fold_left (fun n a => if p a then S n else n) l k
  = (k + length (filter p l))%nat.
Proof.
  revert k. induction l as [|a t IH]; intros k; simpl; [lia|].
  rewrite IH. destruct (p a); simpl; lia.
Qed.

Lemma filter_all (A : Type) (p : A -> bool) (l : list A) :
  length (filter p l) = length l <-> forall a, In a l -> p a = true.
Proof.
  induction l as [|a t IH]; simpl; [tauto|].
  pose proof (filter_length_le p t) as Hle.
  destruct (p a) eqn:Hp; simpl; split.
  - intros H x [<-|Hx]; [exact Hp | apply IH; [lia | exact Hx]].
  - intros H. f_equal. apply IH. auto.
  - intros H. lia.
  - intros H. specialize (H a (or_introl eq_refl)). congruence.
Qed.

Lemma best_loop (f : text -> Q) (l : list text) (init t : Q) :
  t <= fold_left (fun best c => Qmax best (f c)) l init
  <-> t <= init \/ exists c, In c l /\ t <= f c.
Proof.
  revert init. induction l as [|a r IH]; intros init; simpl.
  - split; [auto | intros [H|(c & [] & _)]; exact H].
  - rewrite IH, Q.max_le_iff. split.
    + intros [[H|H]|(c & Hc & H)]; eauto.
    + intros [H|(c & [<-|Hc] & H)]; eauto.
Qed.

(** The best match of a source artist is taken over all the candidate's
    artists. *)
Lemma counts_iff (sp : list text) (a : text) :
  Scorer.counts sp a = true <-> exists c, In c sp /\ 85 <= ratio a c.
Proof.
  unfold Scorer.counts, Scorer.best_match.
  rewrite Qle_bool_iff, best_loop. split.
  - intros [H|H]; [exfalso; revert H; unfold Qle; simpl; lia | exact H].
  - auto.
Qed.

Lemma of_nat_pos (n : nat) : (0 < n)%nat -> 0 < Scorer.of_nat n.
Proof.
  intros H. unfold Scorer.of_nat, Qlt. simpl. lia.
Qed.

Lemma of_nat_le (a b : nat) : (a <= b)%nat -> Scorer.of_nat a <= Scorer.of_nat b.
Proof.
  intros H. unfold Scorer.of_nat, Qle. simpl. lia.
Qed.

Lemma partial_score_bounds (k n : nat) :
  (0 < k)%nat -> (k <= n)%nat ->
  0 <= Scorer.of_nat k / Scorer.of_nat n * 60 <= 60.
Proof.
  intros Hk Hn.
  assert (Hp : 0 < Scorer.of_nat n) by (apply of_nat_pos; lia).
  assert (H0 : 0 <= Scorer.of_nat k / Scorer.of_nat n).
  { apply Qle_shift_div_l; [exact Hp|]. rewrite Qmult_0_l.
    apply Qlt_le_weak, of_nat_pos, Hk. }
  assert (H1 : Scorer.of_nat k / Scorer.of_nat n <= 1).
  { apply Qle_shift_div_r; [exact Hp|]. rewrite Qmult_1_l.
    now apply of_nat_le. }
  lra.
Qed.

(** What [_score_artist_strict] returns, by the number of source artists
    that count. *)
Lemma _score_artist_strict_cases (mdb_artist : text) (sp_all : list text) :
  let artists := TrackNormalizer.extract_artists mdb_artist in
  let sp := map TrackNormalizer.normalize sp_all in
  let matched := length (filter (Scorer.counts sp) artists) in
  Scorer._score_artist_strict mdb_artist sp_all =
    match artists with
    | [] => 0
    | _ => if (matched =? length artists)%nat then 100
           else if (0 <? matched)%nat
                then Scorer.of_nat matched / Scorer.of_nat (length artists) * 60
                else 0
    end.
Proof.
  intros artists sp matched. unfold Scorer._score_artist_strict.
  fold artists. fold sp. rewrite count_loop. simpl. fold matched.
  reflexivity.
Qed.

Lemma _score_artist_strict_bounds (mdb_artist : text) (sp_all : list text) :
  0 <= Scorer._score_artist_strict mdb_artist sp_all <= 100.
Proof.
  rewrite _score_artist_strict_cases.
  set (artists := TrackNormalizer.extract_artists mdb_artist).
  set (sp := map _ _).
  pose proof (filter_length_le (Scorer.counts sp) artists) as Hle.
  destruct artists as [|a t] eqn:E; [lra|]. rewrite <- E in *.
  destruct (Nat.eqb_spec (length (filter (Scorer.counts sp) artists))
                         (length artists)); [lra|].
  destruct (Nat.ltb_spec 0 (length (filter (Scorer.counts sp) artists)));
    [|lra].
  pose proof (partial_score_bounds H Hle). lra.
Qed.

Lemma _score_title_strict_bounds (a b : text) :
  fuzz_bounded F -> 0 <= Scorer._score_title_strict a b <= 100.
Proof.
  intros HB. unfold Scorer._score_title_strict.
  destruct (HB a b) as (Hr & _).
  destruct (text_eqb a b); [lra|].
  destruct (10 <? _)%nat; lra.
Qed.

Lemma _score_remix_bounds (a b : option text) :
  0 <= Scorer._score_remix a b <= 100.
Proof.
  unfold Scorer._score_remix.
  destruct (truthy a), (truthy b); simpl; try lra.
  destruct a, b; try lra.
  destruct (Qle_bool 75 _); [lra|]. destruct (Qle_bool 60 _); lra.
Qed.

Lemma components_bounds (self : TrackScorer) m s :
  fuzz_bounded F ->
  0 <= Scorer.artist_component self m s <= 100 /\
  0 <= Scorer.title_component self m s <= 100 /\
  0 <= Scorer.remix_component self m s <= 100.
Proof.
  intros HB.
  unfold Scorer.artist_component, Scorer.title_component,
    Scorer.remix_component, Scorer.components. cbv zeta. simpl fst. simpl snd.
  split; [apply _score_artist_strict_bounds|].
  split; [now apply _score_title_strict_bounds|].
  pose proof (_score_remix_bounds
                (Scorer._extract_remix (MixTrack.title m))
                (Scorer._extract_remix (SpotifyTrack.name s))).
  destruct (truthy _ && negb (truthy _)); [lra|].
  destruct (negb (truthy _) && truthy _); lra.
Qed.

End ScorerFacts.

(** ** Claims about the scorer *)

(** C1, as stated: for the source title "Strobe (Original Mix)" the
    extraction would return no tag and the remix sub-score against
    "Strobe" would be 100.  On the code the extraction returns the tag
    "original mix" and the remix sub-score is not 100. *)
Lemma strobe_original_mix_is_tagged :
  Scorer._extract_remix (str "Strobe (Original Mix)") <> None /\
  ~ (@Scorer.remix_component indel_fuzz ascii_unicode default_scorer
       (mix_track "deadmau5" "Strobe (Original Mix)")
       (catalogue_track "deadmau5" "Strobe") == 100)%Q.
Proof.
  split; [vm_compute; discriminate|].
  vm_compute. discriminate.
Qed.

(** C1, amended: for the source title "Strobe (Original Mix)" against a
    candidate named "Strobe", the extraction returns the tag
    "original mix" for the source (Mix is one of the scorer's keywords)
    and no tag for the candidate, so the remix component of [score_match]
    is 0, a version mismatch. *)
Theorem strobe_original_mix_mismatch (F : Fuzz) (U : Unicode)
  (self : TrackScorer)
  (m : MixTrack.t) (s : SpotifyTrack.t) :
  MixTrack.title m = str "Strobe (Original Mix)" ->
  SpotifyTrack.name s = str "Strobe" ->
  Scorer._extract_remix (MixTrack.title m) = Some (str "original mix") /\
  Scorer._extract_remix (SpotifyTrack.name s) = None /\
  Scorer.remix_component self m s = 0%Q.
Proof.
  intros Hm Hs.
  assert (E1 : Scorer._extract_remix (str "Strobe (Original Mix)")
               = Some (str "original mix")) by (vm_compute; reflexivity).
  assert (E2 : Scorer._extract_remix (str "Strobe") = None)
    by (vm_compute; reflexivity).
  unfold Scorer.remix_component, Scorer.components.
  rewrite Hm, Hs, E1, E2. repeat split.
Qed.

Lemma strobe_original_mix_mismatch_witness :
  Scorer._extract_remix (str "Strobe (Original Mix)") = Some (str "original mix") /\
  Scorer._extract_remix (str "Strobe") = None /\
  @Scorer.remix_component indel_fuzz ascii_unicode default_scorer
    (mix_track "deadmau5" "Strobe (Original Mix)")
    (catalogue_track "deadmau5" "Strobe") = 0%Q.
Proof.
  exact (@strobe_original_mix_mismatch indel_fuzz ascii_unicode default_scorer
           (mix_track "deadmau5" "Strobe (Original Mix)")
           (catalogue_track "deadmau5" "Strobe") eq_refl eq_refl).
Defined.

(** C2. If exactly one of the two titles yields a remix tag, the remix
    component that [score_match] aggregates is 0, whatever the
    similarity functions compute. *)
Theorem one_sided_tag_zeroes_remix (F : Fuzz) (U : Unicode)
  (self : TrackScorer)
  (m : MixTrack.t) (s : SpotifyTrack.t) :
  xorb (is_some (Scorer._extract_remix (MixTrack.title m)))
       (is_some (Scorer._extract_remix (SpotifyTrack.name s))) = true ->
  Scorer.remix_component self m s = 0%Q.
Proof.
  rewrite <- !truthy_extract.
  unfold Scorer.remix_component, Scorer.components. cbv zeta. simpl snd.
  destruct (truthy (Scorer._extract_remix (MixTrack.title m))),
    (truthy (Scorer._extract_remix (SpotifyTrack.name s)));
    simpl; intros H; try discriminate; reflexivity.
Qed.

(** The source "Opus (Claptone Remix)" against the candidate "Opus". *)
Lemma one_sided_tag_zeroes_remix_witness :
  @Scorer.remix_component indel_fuzz ascii_unicode default_scorer
    (mix_track "Eric Prydz" "Opus (Claptone Remix)")
    (catalogue_track "Eric Prydz" "Opus") = 0%Q.
Proof.
  apply (@one_sided_tag_zeroes_remix indel_fuzz ascii_unicode default_scorer
           (mix_track "Eric Prydz" "Opus (Claptone Remix)")
           (catalogue_track "Eric Prydz" "Opus")).
  vm_compute. reflexivity.
Defined.

(** C3. [score_match] is 0.30 * artist + 0.40 * title + 0.30 * remix with
    the three weights written in the code: the scorer's [weights] object
    plays no part.  With similarities between 0 and 100 the score lies
    between 0 and 100. *)
Theorem score_match_fixed_weights (F : Fuzz) (U : Unicode)
  (self other : TrackScorer)
  (m : MixTrack.t) (s : SpotifyTrack.t) :
  fuzz_bounded F ->
  Scorer.score_match self m s
  = (Scorer.artist_component self m s * 0.30
     + Scorer.title_component self m s * 0.40
     + Scorer.remix_component self m s * 0.30)%Q /\
  Scorer.score_match other m s = Scorer.score_match self m s /\
  (0 <= Scorer.score_match self m s <= 100)%Q.
Proof.
  intros HB.
  assert (E : Scorer.score_match self m s
              = (Scorer.artist_component self m s * 0.30
                 + Scorer.title_component self m s * 0.40
                 + Scorer.remix_component self m s * 0.30)%Q).
  { unfold Scorer.score_match, Scorer.artist_component,
      Scorer.title_component, Scorer.remix_component.
    destruct (Scorer.components self m s) as [[a t] r]. reflexivity. }
  split; [exact E|]. split; [reflexivity|].
  rewrite E. destruct (components_bounds self m s HB) as (Ha & Ht & Hr).
  lra.
Qed.

Lemma lcs_row_length x b prev d l :
  length (lcs_row x b prev d l) = Nat.min (length b) (length prev).
Proof.
  revert prev d l. induction b as [|y b IH]; intros [|up prev] d l; simpl;
    try reflexivity.
  now rewrite IH.
Qed.

Lemma lcs_row_le x m b : forall prev d l,
  Forall (fun v => v <= m) prev -> d <= m -> l <= S m ->
  Forall (fun v => v <= S m) (lcs_row x b prev d l).
Proof.
  induction b as [|y b IH]; intros [|up prev] d l Hp Hd Hl; simpl;
    try constructor.
  - inversion Hp; subst. destruct (Ascii.eqb x y); lia.
  - inversion Hp; subst. apply IH; [assumption | assumption |].
    destruct (Ascii.eqb x y); lia.
Qed.

Lemma lcs_row_le_idx x b : forall k prev d l,
  le_idx (S k) prev -> d <= k -> l <= k ->
  le_idx (S k) (lcs_row x b prev d l).
Proof.
  induction b as [|y b IH]; intros k [|up prev] d l Hp Hd Hl; simpl;
    try exact I.
  destruct Hp as [Hup Hp]. split.
  - destruct (Ascii.eqb x y); lia.
  - apply IH; [exact Hp | exact Hup |]. destruct (Ascii.eqb x y); lia.
Qed.

Lemma rows_invariant (b : text) (a : text) : forall row m,
  Forall (fun v => v <= m) row -> le_idx 1 row -> length row = length b ->
  let final := fold_left (fun row x => lcs_row x b row 0 0) a row in
  Forall (fun v => v <= m + length a) final /\ le_idx 1 final
  /\ length final = length b.
Proof.
  induction a as [|x a IH]; intros row m Hm Hi Hl; simpl.
  - rewrite Nat.add_0_r. auto.
  - replace (m + S (length a)) with (S m + length a) by lia.
    apply IH.
    + apply lcs_row_le; [exact Hm | lia | lia].
    + apply lcs_row_le_idx; [exact Hi | lia | lia].
    + rewrite lcs_row_length, Hl. apply Nat.min_id.
Qed.

Lemma le_idx_last (row : list nat) : forall k,
  le_idx k row -> last row 0 <= k + length row - 1.
Proof.
  induction row as [|v r IH]; intros k H; [simpl; lia|].
  destruct H as [Hv Hr]. destruct r as [|w r].
  - simpl. lia.
  - change (last (v :: w :: r) 0) with (last (w :: r) 0).
    specialize (IH (S k) Hr). simpl in *. lia.
Qed.

Lemma Forall_last (m : nat) (row : list nat) :
  Forall (fun v => v <= m) row -> last row 0 <= m.
Proof.
  induction 1 as [|v r Hv Hr IH]; [simpl; lia|].
  destruct r; [exact Hv | exact IH].
Qed.

Lemma zero_row (b : text) :
  Forall (fun v => v <= 0) (map (fun _ => 0) b)
  /\ (forall k, le_idx k (map (fun _ => 0) b)).
Proof.
  induction b as [|y b [IH1 IH2]]; simpl; split; auto.
  - intros k. split; [lia | apply IH2].
Qed.

Lemma lcs_le (a b : text) : lcs a b <= length a /\ lcs a b <= length b.
Proof.
  unfold lcs.
  destruct (zero_row b) as [H0 Hi].
  destruct (@rows_invariant b a (map (fun _ => 0) b) 0 H0 (Hi 1)
              (length_map _ _)) as (Hm & Hidx & Hlen).
  split.
  - apply Forall_last in Hm. simpl in Hm. exact Hm.
  - apply le_idx_last in Hidx. rewrite Hlen in Hidx. lia.
Qed.

Lemma indel_ratio_bounds (a b : text) : (0 <= indel_ratio a b <= 100)%Q.
Proof.
  unfold indel_ratio.
  destruct (length a + length b) as [|n] eqn:E; [lra|].
  destruct (lcs_le a b) as [Ha Hb].
  assert (Hp : (0 < Scorer.of_nat (S n))%Q) by (apply of_nat_pos; lia).
  assert (H0 : (0 <= Scorer.of_nat (2 * lcs a b))%Q)
    by (apply (of_nat_le (a:=0)); lia).
  assert (H1 : (Scorer.of_nat (2 * lcs a b) <= Scorer.of_nat (S n))%Q)
    by (apply of_nat_le; lia).
  split.
  - apply Qle_shift_div_l; [exact Hp | lra].
  - apply Qle_shift_div_r; [exact Hp | lra].
Qed.

Lemma indel_fuzz_bounded : fuzz_bounded indel_fuzz.
Proof.
  intros a b. simpl. pose proof (indel_ratio_bounds a b). tauto.
Qed.

Lemma score_match_fixed_weights_witness :
  let m := mix_track "Avicii" "Levels" in
  let s := catalogue_track "Avicii" "Levels" in
  let other := {| weights := {| sw_artist := 1; sw_title := 0 |} |} in
  @Scorer.score_match indel_fuzz ascii_unicode default_scorer m s
  = (@Scorer.artist_component indel_fuzz ascii_unicode default_scorer m s * 0.30
     + @Scorer.title_component indel_fuzz ascii_unicode default_scorer m s * 0.40
     + @Scorer.remix_component indel_fuzz ascii_unicode default_scorer m s * 0.30)%Q /\
  @Scorer.score_match indel_fuzz ascii_unicode other m s
  = @Scorer.score_match indel_fuzz ascii_unicode default_scorer m s /\
  (0 <= @Scorer.score_match indel_fuzz ascii_unicode default_scorer m s <= 100)%Q.
Proof.
  intros m s other.
  exact (@score_match_fixed_weights indel_fuzz ascii_unicode default_scorer other m s
           indel_fuzz_bounded).
Defined.

(** C4. For a non-empty list of extracted source artists, the artist
    sub-score is 100 exactly when every source artist has, among all the
    candidate's artists, a best similarity of at least 85; it is
    (matched / total) * 60 when some but not all do, and 0 when none
    does. *)
Theorem artist_score_by_coverage (F : Fuzz) (U : Unicode)
  (mdb_artist : text)
  (sp_all : list text) :
  let artists := TrackNormalizer.extract_artists mdb_artist in
  let sp := map TrackNormalizer.normalize sp_all in
  let matched := length (filter (Scorer.counts sp) artists) in
  let result := Scorer._score_artist_strict mdb_artist sp_all in
  artists <> [] ->
  ((result == 100)%Q <->
   forall a, In a artists -> (85 <= Scorer.best_match a sp)%Q) /\
  (0 < matched < length artists ->
   result = (Scorer.of_nat matched / Scorer.of_nat (length artists) * 60)%Q) /\
  (matched = 0 -> result = 0%Q) /\
  (forall a, (85 <= Scorer.best_match a sp)%Q <->
             exists c, In c sp_all /\
                       (85 <= ratio a (TrackNormalizer.normalize c))%Q).
Proof.
  intros artists sp matched result Hne.
  assert (Hall : matched = length artists <->
                 forall a, In a artists -> (85 <= Scorer.best_match a sp)%Q).
  { unfold matched. rewrite filter_all. unfold Scorer.counts.
    split; intros H a Ha; apply Qle_bool_iff; now apply H. }
  assert (Hle : matched <= length artists) by apply filter_length_le.
  assert (Hlen : 0 < length artists)
    by (destruct artists; [congruence | simpl; lia]).
  assert (E : result =
              if matched =? length artists then 100%Q
              else if 0 <? matched
                   then (Scorer.of_nat matched
                         / Scorer.of_nat (length artists) * 60)%Q
                   else 0%Q).
  { unfold result. rewrite _score_artist_strict_cases.
    fold artists. fold sp. fold matched.
    destruct artists; [congruence | reflexivity]. }
  split; [|split; [|split]].
  - rewrite <- Hall, E.
    destruct (Nat.eqb_spec matched (length artists)) as [Heq|Hneq].
    + split; [intros _; exact Heq | reflexivity].
    + split; [|intros H; contradiction].
      destruct (Nat.ltb_spec 0 matched) as [Hpos|Hzero]; intros H.
      * pose proof (partial_score_bounds Hpos Hle). exfalso. lra.
      * exfalso. revert H. unfold Qeq. simpl. lia.
  - intros [Hpos Hlt]. rewrite E.
    destruct (Nat.eqb_spec matched (length artists)); [lia|].
    destruct (Nat.ltb_spec 0 matched); [reflexivity | lia].
  - intros H0. rewrite E, H0.
    destruct (Nat.eqb_spec 0 (length artists)); [lia | reflexivity].
  - intros a. rewrite <- Qle_bool_iff.
    change (Qle_bool 85 (Scorer.best_match a sp)) with (Scorer.counts sp a).
    rewrite counts_iff. unfold sp. split.
    + intros (c & Hc & H). apply in_map_iff in Hc.
      destruct Hc as (c0 & <- & Hc0). eauto.
    + intros (c & Hc & H). exists (TrackNormalizer.normalize c).
      split; [now apply in_map | exact H].
Qed.

(** "daft punk and pharrell" against Daft Punk and Pharrell Williams: under
    the Indel similarity one of the two source artists counts. *)
Lemma artist_score_by_coverage_witness :
  @Scorer._score_artist_strict indel_fuzz ascii_unicode (str "daft punk and pharrell")
    [str "Daft Punk"; str "Pharrell Williams"]
  = (Scorer.of_nat 1 / Scorer.of_nat 2 * 60)%Q.
Proof.
  apply (@artist_score_by_coverage indel_fuzz ascii_unicode (str "daft punk and pharrell")
           [str "Daft Punk"; str "Pharrell Williams"]).
  - vm_compute. discriminate.
  - vm_compute. split; constructor.
Defined.

(** ** The strategy cascade *)

Section CascadeFacts.
Context {F : Fuzz} {U : Unicode}.
Variable World : Type.
Variable Error : Type.
Variable search_backend :
  text -> nat -> World -> (Error + list SpotifyTrack.t) * World.
Variable self : TrackMatcher.t.

Abbreviation State := (TrackMatcher.State World).
Abbreviation _evaluate_results := (TrackMatcher._evaluate_results self).
Abbreviation find_match := (TrackMatcher.find_match search_backend self).
Abbreviation cascade := (TrackMatcher.cascade (Error:=Error) (World:=World)).
Abbreviation strategies := (TrackMatcher.strategies search_backend self).
Abbreviation passes := (TrackMatcher.passes (Error:=Error) (World:=World)).
Abbreviation score_all := (TrackMatcher.score_all self).
Abbreviation search_track := (TrackMatcher.search_track search_backend).

Lemma _no_match_invariant track name :
  attached_iff_matched (TrackMatcher._no_match track name).
Proof. unfold attached_iff_matched. simpl. split; congruence. Qed.

Lemma _evaluate_results_invariant track results name :
  attached_iff_matched (_evaluate_results track results name).
Proof.
  unfold TrackMatcher._evaluate_results.
  destruct results as [|c t]; [apply _no_match_invariant|].
  destruct (sort_desc _) as [|[bt bs] rest]; [apply _no_match_invariant|].
  destruct (Qlt_bool bs _ && negb _); unfold attached_iff_matched;
    cbn [spotify_track confidence is_some].
  - split; congruence.
  - split; [intros _; apply from_score_not_no_match | reflexivity].
Qed.

Lemma search_track_run query limit (st : State) :
  search_track query limit st
  = (fst (search_backend query limit (TrackMatcher.world st)),
     {| TrackMatcher.world :=
          snd (search_backend query limit (TrackMatcher.world st));
        TrackMatcher.calls :=
          TrackMatcher.calls st
          ++ [{| call_query := query; call_limit := limit |}] |}).
Proof.
  unfold TrackMatcher.search_track.
  destruct (search_backend query limit (TrackMatcher.world st)); reflexivity.
Qed.

(** A search followed by the evaluation of what it returned. *)
Lemma search_then_evaluate query limit
  (post : list SpotifyTrack.t -> list SpotifyTrack.t) track name (st : State) :
  let c := TrackMatcher.bind (search_track query limit)
             (fun results =>
                TrackMatcher.ret (_evaluate_results track (post results) name)) in
  TrackMatcher.calls (snd (c st))
  = TrackMatcher.calls st ++ [{| call_query := query; call_limit := limit |}]
  /\ (forall r, fst (c st) = inr r ->
        exists results, r = _evaluate_results track results name).
Proof.
  intros c. unfold c, TrackMatcher.bind. rewrite search_track_run.
  destruct (fst (search_backend query limit (TrackMatcher.world st))) as [e|res].
  - split; [reflexivity|]. intros r Hr. discriminate.
  - split; [reflexivity|]. unfold TrackMatcher.ret. cbn [fst].
    intros r Hr. inversion Hr. eauto.
Qed.

(** What one strategy does: one search, then the evaluation of some list
    of candidates under the strategy's name. *)
Lemma strategy_step name f track (st : State) :
  In (name, f) strategies ->
  exists query limit,
    TrackMatcher.calls (snd (f track name st))
    = TrackMatcher.calls st ++ [{| call_query := query; call_limit := limit |}]
    /\ (forall r, fst (f track name st) = inr r ->
          exists results, r = _evaluate_results track results name).
Proof.
  intros Hin. unfold TrackMatcher.strategies in Hin. cbn [In] in Hin.
  destruct Hin as [H|[H|[H|[H|[]]]]]; injection H as <- <-; do 2 eexists.
  - exact (search_then_evaluate _ _ (fun l => l) track _ st).
  - exact (search_then_evaluate _ _ (fun l => l) track _ st).
  - exact (search_then_evaluate _ _ (fun l => l) track _ st).
  - exact (search_then_evaluate _ _ (TrackMatcher.rerank self track) track _ st).
Qed.

(** The result of the loop is the prior best result, the result of one of
    the strategies, or the placeholder. *)
Lemma cascade_result (P : MatchResult -> Prop) track :
  P (TrackMatcher._no_match track (str "none")) ->
  forall (l : list (TrackMatcher.strategy World Error)) best (st st' : State) r,
    (forall name f s r', In (name, f) l -> fst (f track name s) = inr r' -> P r') ->
    (forall b, best = Some b -> P b) ->
    cascade l best track st = (inr r, st') -> P r.
Proof.
  intros Hnone l. induction l as [|[name f] rest IH];
    intros best st st' r Hl Hb H; cbn [TrackMatcher.cascade] in H.
  - unfold TrackMatcher.ret in H. inversion H; subst.
    destruct best; [now apply Hb | exact Hnone].
  - unfold TrackMatcher.bind in H.
    destruct (f track name st) as [[e|r1] st1] eqn:E; [discriminate|].
    assert (P1 : P r1).
    { apply (Hl name f st r1); [now left | now rewrite E]. }
    destruct (TrackMatcher.is_high r1).
    + unfold TrackMatcher.ret in H. inversion H; subst. exact P1.
    + eapply IH; [| |exact H].
      * intros n g s r' Hin. apply Hl. now right.
      * intros b Hbest. destruct best as [b0|].
        -- destruct (Qlt_bool _ _); inversion Hbest; subst; auto.
        -- inversion Hbest; subst; exact P1.
Qed.

(** The loop stops at the first strategy with a high-confidence result. *)
Lemma cascade_short_circuit track
  (pre post : list (TrackMatcher.strategy World Error)) name f :
  forall best best1 (st st1 st2 : State) r,
    passes pre best track st = Some (best1, st1) ->
    f track name st1 = (inr r, st2) ->
    TrackMatcher.is_high r = true ->
    cascade (pre ++ (name, f) :: post) best track st = (inr r, st2).
Proof.
  induction pre as [|[n g] pre IH]; intros best best1 st st1 st2 r Hp Hf Hh.
  - cbn [TrackMatcher.passes] in Hp. inversion Hp; subst.
    cbn [app TrackMatcher.cascade]. unfold TrackMatcher.bind.
    rewrite Hf, Hh. reflexivity.
  - cbn [TrackMatcher.passes] in Hp. cbn [app TrackMatcher.cascade].
    unfold TrackMatcher.bind.
    destruct (g track n st) as [[e|r0] st0]; [discriminate|].
    destruct (TrackMatcher.is_high r0); [discriminate|].
    eapply IH; eassumption.
Qed.

Lemma passes_calls track (pre : list (TrackMatcher.strategy World Error)) :
  (forall name f, In (name, f) pre -> In (name, f) strategies) ->
  forall best best1 (st st1 : State),
    passes pre best track st = Some (best1, st1) ->
    length (TrackMatcher.calls st1) = length (TrackMatcher.calls st) + length pre.
Proof.
  induction pre as [|[n g] pre IH]; intros Hin best best1 st st1 Hp;
    cbn [TrackMatcher.passes] in Hp.
  - inversion Hp; subst. simpl. lia.
  - destruct (@strategy_step n g track st (Hin n g (or_introl eq_refl)))
      as (q & lim & Hc & _).
    destruct (g track n st) as [[e|r0] st0]; [discriminate|].
    destruct (TrackMatcher.is_high r0); [discriminate|].
    apply IH in Hp; [|intros; apply Hin; now right].
    cbn [snd] in Hc. rewrite Hp, Hc, length_app. simpl. lia.
Qed.

(** The two ways out of [_evaluate_results] once the candidates are
    sorted. *)
Lemma _evaluate_results_sorted track results name bt bs rest :
  sort_desc (score_all track results) = (bt, bs) :: rest ->
  _evaluate_results track results name
  = if Qlt_bool bs (min_score (TrackMatcher.config self))
       && negb (include_low_confidence (TrackMatcher.config self))
    then {| mixesdb_track := track; spotify_track := None;
            confidence := NO_MATCH; score := bs;
            search_strategy := name;
            alternatives := bt :: map fst (firstn 4 rest) |}
    else {| mixesdb_track := track; spotify_track := Some bt;
            confidence := from_score bs; score := bs;
            search_strategy := name;
            alternatives := map fst (firstn 4 rest) |}.
Proof.
  intros E. unfold TrackMatcher._evaluate_results.
  destruct results as [|c t]; [discriminate|].
  rewrite E. reflexivity.
Qed.

Lemma _evaluate_results_accepted track results name bt bs rest :
  sort_desc (score_all track results) = (bt, bs) :: rest ->
  (min_score (TrackMatcher.config self) <= bs)%Q
  \/ include_low_confidence (TrackMatcher.config self) = true ->
  _evaluate_results track results name
  = {| mixesdb_track := track; spotify_track := Some bt;
       confidence := from_score bs; score := bs;
       search_strategy := name;
       alternatives := map fst (firstn 4 rest) |}.
Proof.
  intros E Hacc. rewrite (_evaluate_results_sorted track results name E).
  destruct (Qlt_bool_spec bs (min_score (TrackMatcher.config self))) as [Hlt|Hge];
    [|reflexivity].
  destruct (include_low_confidence (TrackMatcher.config self));
    [reflexivity|].
  destruct Hacc as [H|H]; [exfalso; exact (Qlt_not_le _ _ Hlt H) | discriminate].
Qed.

End CascadeFacts.

(** ** Claims about the cascade *)

Section CascadeClaims.
Context {F : Fuzz} {U : Unicode}.
Variable World : Type.
Variable Error : Type.
Variable search_backend :
  text -> nat -> World -> (Error + list SpotifyTrack.t) * World.
Variable self : TrackMatcher.t.

Abbreviation State' := (TrackMatcher.State World).
Abbreviation find_match' := (TrackMatcher.find_match search_backend self).
Abbreviation evaluate' := (TrackMatcher._evaluate_results self).
Abbreviation scored' track results :=
  (sort_desc (TrackMatcher.score_all self track results)).

(** C10. A result that [find_match] returns has a candidate attached
    exactly when its tier is not NO_MATCH, and so its [matched] flag is
    true exactly when a candidate is attached. *)
Theorem find_match_result_invariant (track : MixTrack.t) (st st' : State')
  (r : MatchResult) :
  find_match' track st = (inr r, st') ->
  (is_some (spotify_track r) = true <-> confidence r <> NO_MATCH) /\
  (matched r = true <-> is_some (spotify_track r) = true).
Proof.
  intros H.
  assert (I : attached_iff_matched r).
  { unfold TrackMatcher.find_match in H.
    eapply (@cascade_result World Error attached_iff_matched track);
      [apply _no_match_invariant | | | exact H].
    - intros name f s r' Hin Hr.
      destruct (@strategy_step F U World Error search_backend self
                  name f track s Hin) as (q & lim & _ & Hres).
      destruct (Hres r' Hr) as (results & ->).
      apply _evaluate_results_invariant.
    - discriminate. }
  split; [exact I|].
  unfold matched. unfold attached_iff_matched in I.
  destruct (is_some (spotify_track r)); cbn [andb].
  - split; [reflexivity|]. intros _.
    destruct (confidence r); try reflexivity.
    exfalso. now apply (proj1 I).
  - split; intros; discriminate.
Qed.

(** C8. The evaluation of a non-empty candidate list.  The candidates are
    sorted by score, the best first.  When the best score is below
    [min_score] and [include_low_confidence] is off, the result is
    NO_MATCH without a track, keeps the best score, and carries the first
    five of the sorted candidates as alternates, at least one; otherwise
    the best candidate is reported with the tier of its score, its score,
    and the next four of the sorted candidates as alternates. *)
Theorem _evaluate_results_acceptance (track : MixTrack.t)
  (results : list SpotifyTrack.t) (name : text) :
  results <> [] ->
  let config := TrackMatcher.config self in
  let r := evaluate' track results name in
  StronglySorted desc (scored' track results) /\
  Permutation (scored' track results) (TrackMatcher.score_all self track results) /\
  (exists best rest, scored' track results = best :: rest) /\
  forall best_track best_score rest,
    scored' track results = (best_track, best_score) :: rest ->
    (forall c, In c results ->
       (Scorer.score_match (TrackMatcher.scorer self) track c <= best_score)%Q) /\
    ((best_score < min_score config)%Q -> include_low_confidence config = false ->
     confidence r = NO_MATCH /\ spotify_track r = None /\
     score r = best_score /\
     alternatives r = best_track :: map fst (firstn 4 rest) /\
     1 <= length (alternatives r) <= 5) /\
    ((min_score config <= best_score)%Q \/ include_low_confidence config = true ->
     spotify_track r = Some best_track /\
     confidence r = from_score best_score /\
     score r = best_score /\
     alternatives r = map fst (firstn 4 rest) /\
     length (alternatives r) <= 4).
Proof.
  intros Hne config r.
  split; [apply sort_desc_sorted|].
  split; [apply sort_desc_perm|].
  assert (Hs : scored' track results <> []).
  { apply sort_desc_nonempty. unfold TrackMatcher.score_all.
    destruct results; [congruence | discriminate]. }
  split.
  { destruct (scored' track results) as [|b rest]; [congruence | eauto]. }
  intros bt bs rest E.
  assert (Hlen : length (map fst (firstn 4 rest)) <= 4).
  { rewrite length_map, length_firstn. lia. }
  assert (Er := @_evaluate_results_sorted F U self track results name bt bs rest E).
  fold r in Er. fold config in Er.
  split; [|split].
  - intros c Hc.
    apply (sort_desc_head_max (TrackMatcher.score_all self track results) E
             (c, Scorer.score_match (TrackMatcher.scorer self) track c)).
    unfold TrackMatcher.score_all.
    apply (in_map (fun r0 => (r0, Scorer.score_match
                                    (TrackMatcher.scorer self) track r0))).
    exact Hc.
  - intros Hlt Hlow. rewrite Er.
    destruct (Qlt_bool_spec bs (min_score config)) as [_|Hge];
      [|exfalso; exact (Qlt_not_le _ _ Hlt Hge)].
    rewrite Hlow.
    cbn [andb negb confidence spotify_track score alternatives length].
    repeat split; lia.
  - intros Hacc. unfold r.
    rewrite (@_evaluate_results_accepted F U self track results name bt bs rest E Hacc).
    cbn [confidence spotify_track score alternatives].
    repeat split; exact Hlen.
Qed.

(** C9, amended. [_title_only_search] issues one search, with limit 20,
    for the title as a field: the title with its parenthetical remix
    marker taken out by [extract_remix_info], not search-normalized.  It
    then sorts all the returned candidates by score and evaluates the
    first ten of them. *)
Theorem _title_only_search_steps (track : MixTrack.t) (name : text)
  (st : State') (results : list SpotifyTrack.t) (w' : World) :
  let clean_title :=
    fst (TrackNormalizer.extract_remix_info (MixTrack.title track)) in
  let query := str "track:" ++ dquote ++ clean_title ++ dquote in
  let kept := map fst (firstn 10 (scored' track results)) in
  search_backend query 20 (TrackMatcher.world st) = (inr results, w') ->
  TrackMatcher._title_only_search search_backend self track name st
  = (inr (evaluate' track kept name),
     {| TrackMatcher.world := w';
        TrackMatcher.calls :=
          TrackMatcher.calls st
          ++ [{| call_query := query; call_limit := 20 |}] |}) /\
  length kept <= 10 /\
  StronglySorted desc (scored' track results) /\
  Permutation (scored' track results) (TrackMatcher.score_all self track results).
Proof.
  intros clean_title query kept H.
  split; [|split; [|split]].
  - unfold TrackMatcher._title_only_search, TrackMatcher.bind.
    change (TrackMatcher.title_only_query track) with query.
    rewrite search_track_run, H. cbn [fst snd]. unfold TrackMatcher.ret.
    do 2 f_equal. unfold kept. destruct results; reflexivity.
  - unfold kept. rewrite length_map, length_firstn. lia.
  - apply sort_desc_sorted.
  - apply sort_desc_perm.
Qed.

(** C7, amended. A strategy whose result has confidence EXACT or HIGH
    ends [find_match]: the result is returned and the searches issued
    are those of the strategies up to that one.  In particular, when the
    top candidate of the exact strategy scores at least 95 and that score
    is not below [min_score] (or [include_low_confidence] is on), the
    exact search is the only one issued. *)
Theorem find_match_short_circuit (track : MixTrack.t) (st : State') :
  (forall pre name f post best1 st1 r st2,
     TrackMatcher.strategies search_backend self = pre ++ (name, f) :: post ->
     TrackMatcher.passes pre None track st = Some (best1, st1) ->
     f track name st1 = (inr r, st2) ->
     confidence r = EXACT \/ confidence r = HIGH ->
     find_match' track st = (inr r, st2) /\
     length (TrackMatcher.calls st2)
     = length (TrackMatcher.calls st) + length pre + 1) /\
  (forall results w' best_score,
     let query := TrackMatcher.exact_query (MixTrack.artist track)
                                           (MixTrack.title track) in
     search_backend query 5 (TrackMatcher.world st) = (inr results, w') ->
     TrackMatcher.top_score self track results = Some best_score ->
     (95 <= best_score)%Q ->
     (min_score (TrackMatcher.config self) <= best_score)%Q
     \/ include_low_confidence (TrackMatcher.config self) = true ->
     find_match' track st
     = (inr (evaluate' track results (str "exact")),
        {| TrackMatcher.world := w';
           TrackMatcher.calls :=
             TrackMatcher.calls st
             ++ [{| call_query := query; call_limit := 5 |}] |}) /\
     confidence (evaluate' track results (str "exact")) = EXACT).
Proof.
  assert (A : forall pre name f post best1 st1 r st2,
     TrackMatcher.strategies search_backend self = pre ++ (name, f) :: post ->
     TrackMatcher.passes pre None track st = Some (best1, st1) ->
     f track name st1 = (inr r, st2) ->
     confidence r = EXACT \/ confidence r = HIGH ->
     find_match' track st = (inr r, st2) /\
     length (TrackMatcher.calls st2)
     = length (TrackMatcher.calls st) + length pre + 1).
  { intros pre name f post best1 st1 r st2 Hs Hp Hf Hc.
    assert (Hh : TrackMatcher.is_high r = true).
    { unfold TrackMatcher.is_high. destruct Hc as [-> | ->]; reflexivity. }
    split.
    - unfold TrackMatcher.find_match. rewrite Hs.
      eapply cascade_short_circuit; eassumption.
    - assert (Hin : forall n g, In (n, g) (pre ++ (name, f) :: post) ->
                      In (n, g) (TrackMatcher.strategies search_backend self))
        by (intros n g; now rewrite Hs).
      pose proof (@passes_calls F U World Error search_backend self track pre
                    (fun n g H => Hin n g (in_or_app _ _ _ (or_introl H)))
                    None best1 st st1 Hp) as Hpre.
      destruct (@strategy_step F U World Error search_backend self name f track st1)
        as (q & lim & Hcalls & _).
      { apply Hin, in_or_app. right. now left. }
      rewrite Hf in Hcalls. cbn [snd] in Hcalls.
      rewrite Hcalls, length_app, Hpre. reflexivity. }
  split; [exact A|].
  intros results w' bs query Hb Ht H95 Hacc.
  unfold TrackMatcher.top_score in Ht.
  destruct (sort_desc (TrackMatcher.score_all self track results))
    as [|[bt bs'] rest] eqn:E; [discriminate|].
  inversion Ht; subst bs'.
  assert (Ev := @_evaluate_results_accepted F U self track results (str "exact")
                  bt bs rest E Hacc).
  assert (Hc : confidence (evaluate' track results (str "exact")) = EXACT).
  { rewrite Ev. cbn [confidence]. unfold from_score.
    destruct (Qle_bool_spec 95 bs) as [_|Hlt]; [reflexivity|].
    exfalso. exact (Qlt_not_le _ _ Hlt H95). }
  split; [|exact Hc].
  refine (proj1 (A [] (str "exact")
                   (TrackMatcher._exact_search search_backend self)
                   _ None st _ _ eq_refl eq_refl _ (or_introl Hc))).
  unfold TrackMatcher._exact_search, TrackMatcher.search_track_exact,
    TrackMatcher.bind.
  fold query. rewrite search_track_run, Hb. reflexivity.
Qed.

End CascadeClaims.

(** ** The cascade on concrete tracks *)

(** Avicii, "Levels", against a catalogue that holds the same track: the
    exact search is the only one. *)
Lemma find_match_short_circuit_witness :
  TrackMatcher.calls
    (snd (@TrackMatcher.find_match indel_fuzz ascii_unicode unit text
            (catalogue_backend [catalogue_track "Avicii" "Levels"])
            default_matcher (mix_track "Avicii" "Levels") start))
  = [{| call_query := TrackMatcher.exact_query (str "Avicii") (str "Levels");
        call_limit := 5 |}].
Proof.
  assert (H := proj2 (@find_match_short_circuit indel_fuzz ascii_unicode unit text
                        (catalogue_backend [catalogue_track "Avicii" "Levels"])
                        default_matcher (mix_track "Avicii" "Levels") start)).
  specialize (H [catalogue_track "Avicii" "Levels"] tt
                (@Scorer.score_match indel_fuzz ascii_unicode default_scorer
                   (mix_track "Avicii" "Levels")
                   (catalogue_track "Avicii" "Levels"))
                eq_refl eq_refl).
  destruct H as [H _].
  - vm_compute. discriminate.
  - left. vm_compute. discriminate.
  - rewrite H. reflexivity.
Defined.

(** C7, as stated: a top candidate of the exact strategy scoring at least
    95 would keep the later strategies from searching.  With [min_score]
    at 100 a candidate scoring 2860/29 (about 98.6) is below the
    threshold, the exact strategy reports NO_MATCH, and all four
    strategies search. *)
Lemma high_score_below_min_score_searches_on :
  let track := mix_track "Avicii" "Levels Of Love" in
  let catalogue := [catalogue_track "Avicii" "Levels Of Loves"] in
  let out := @TrackMatcher.find_match indel_fuzz ascii_unicode unit text
               (catalogue_backend catalogue) strict_matcher track start in
  (exists b, @TrackMatcher.top_score indel_fuzz ascii_unicode strict_matcher track catalogue
             = Some b /\ (95 <= b)%Q) /\
  map call_limit (TrackMatcher.calls (snd out)) = [5; 10; 10; 20].
Proof.
  split.
  - eexists. split; [vm_compute; reflexivity | vm_compute; discriminate].
  - vm_compute. reflexivity.
Qed.

(** Three source artists of which two count, the same title, no remix
    tag: the score is 82, below the default [min_score] of 90. *)
Lemma _evaluate_results_acceptance_witness :
  let track := mix_track "Daft Punk & Pharrell & Nile Rodgers" "Get Lucky" in
  let r := @TrackMatcher._evaluate_results indel_fuzz ascii_unicode default_matcher track
             [get_lucky] (str "exact") in
  confidence r = NO_MATCH /\ spotify_track r = None /\
  (score r == 82)%Q /\ alternatives r = [get_lucky].
Proof.
  intros track r.
  destruct (@_evaluate_results_acceptance indel_fuzz ascii_unicode default_matcher track
              [get_lucky] (str "exact")) as (_ & _ & _ & H);
    [discriminate|].
  destruct (H get_lucky
              (@Scorer.score_match indel_fuzz ascii_unicode default_scorer track get_lucky)
              [] eq_refl) as (_ & Hno & _).
  destruct Hno as (Hc & Ht & Hs & Ha & _).
  - vm_compute. reflexivity.
  - reflexivity.
  - fold r in Hc, Ht, Hs, Ha.
    split; [exact Hc|]. split; [exact Ht|]. split; [|exact Ha].
    rewrite Hs. vm_compute. reflexivity.
Defined.

(** C9, as stated: the title-only query would carry the search-normalized
    title.  For "Opus (Claptone Remix) [Pryda]" the query keeps the
    capital, the label in brackets and both blanks, while the
    search-normalized title is "opus". *)
Lemma title_only_query_not_normalized :
  let track := mix_track "Eric Prydz" "Opus (Claptone Remix) [Pryda]" in
  let out := @TrackMatcher._title_only_search indel_fuzz ascii_unicode unit text
               (catalogue_backend []) default_matcher track
               (str "title_only") start in
  let clean_title :=
    fst (TrackNormalizer.extract_remix_info (MixTrack.title track)) in
  TrackMatcher.calls (snd out)
  = [{| call_query := str "track:" ++ dquote ++ str "Opus  [Pryda]" ++ dquote;
        call_limit := 20 |}] /\
  @TrackNormalizer.normalize_for_search ascii_unicode clean_title
  = str "opus" /\
  contains (@TrackNormalizer.normalize_for_search ascii_unicode clean_title)
           (str "track:" ++ dquote ++ str "Opus  [Pryda]" ++ dquote) = false.
Proof.
  split; [|split]; vm_compute; reflexivity.
Qed.

Lemma _title_only_search_steps_witness :
  let track := mix_track "Eric Prydz" "Opus (Claptone Remix) [Pryda]" in
  TrackMatcher.calls
    (snd (@TrackMatcher._title_only_search indel_fuzz ascii_unicode unit text
            (catalogue_backend [catalogue_track "Eric Prydz" "Opus"])
            default_matcher track (str "title_only") start))
  = [{| call_query := str "track:" ++ dquote ++ str "Opus  [Pryda]" ++ dquote;
        call_limit := 20 |}].
Proof.
  intros track.
  destruct (@_title_only_search_steps indel_fuzz ascii_unicode unit text
              (catalogue_backend [catalogue_track "Eric Prydz" "Opus"])
              default_matcher track (str "title_only") start
              [catalogue_track "Eric Prydz" "Opus"] tt) as (H & _).
  - reflexivity.
  - rewrite H. vm_compute. reflexivity.
Defined.

Lemma find_match_result_invariant_witness :
  let out := @TrackMatcher.find_match indel_fuzz ascii_unicode unit text
               (catalogue_backend [catalogue_track "Avicii" "Levels"])
               default_matcher (mix_track "Avicii" "Levels") start in
  match fst out with
  | inr r => matched r = true /\ is_some (spotify_track r) = true
             /\ confidence r <> NO_MATCH
  | inl _ => False
  end.
Proof.
  intros out.
  destruct (fst out) as [e|r] eqn:E.
  - vm_compute in E. discriminate.
  - assert (H : out = (inr r, snd out))
      by (rewrite <- E; apply surjective_pairing).
    destruct (@find_match_result_invariant indel_fuzz ascii_unicode unit text
                (catalogue_backend [catalogue_track "Avicii" "Levels"])
                default_matcher (mix_track "Avicii" "Levels") start (snd out)
                r H) as (I & M).
    assert (S : is_some (spotify_track r) = true).
    { vm_compute in E. inversion E. reflexivity. }
    split; [now apply M|]. split; [exact S | now apply I].
Defined.

(** ** The normalizer on its own output *)

Lemma run_star_total (A : Type) (r : Re.re) (k : Re.cont A) s g :
  (forall s g, k s g <> None) -> Re.run (Re.Star r) s g k <> None.
Proof.
  intros Hk. cbn [Re.run]. destruct (length s); [apply Hk|].
  match goal with |- match ?x with _ => _ end <> _ => destruct x end;
    [discriminate | apply Hk].
Qed.

Lemma run_star_cls (A : Type) (p : ascii -> bool) (k : Re.cont A) t g :
  (forall s g, k s g <> None) ->
  Re.run (Re.Star (Re.Cls p)) t g k
  = match t with
    | c :: t' => if p c then Re.run (Re.Star (Re.Cls p)) t' g k else k t g
    | [] => k t g
    end.
Proof.
  intros Hk. destruct t as [|c t']; [reflexivity|].
  cbn [Re.run length].
  destruct (p c); [|reflexivity].
  assert (E : (length t' <? S (length t')) = true) by (apply Nat.ltb_lt; lia).
  rewrite E.
  match goal with |- match ?x with _ => _ end = _ => destruct x eqn:Ex end;
    [reflexivity|].
  exfalso. exact (@run_star_total A (Re.Cls p) k t' g Hk Ex).
Qed.

(** A greedy run of white space takes all the white space at the head. *)
Lemma run_star_ws (t : text) (g : option text) :
  Re.run (Re.Star Re.ws) t g (fun s' g' => Some (s', g')) = Some (lstrip t, g).
Proof.
  induction t as [|c t IH]; [reflexivity|].
  unfold Re.ws in *. rewrite run_star_cls by discriminate.
  cbn [lstrip]. destruct (is_space c); [exact IH | reflexivity].
Qed.

Lemma lstrip_length (t : text) : length (lstrip t) + lead t = length t.
Proof.
  induction t as [|c t IH]; [reflexivity|].
  cbn [lstrip lead]. destruct (is_space c); simpl; lia.
Qed.

Lemma match_len_spaces (c : ascii) (t : text) :
  Re.match_len (Re.plus Re.ws) (c :: t)
  = if is_space c then Some (S (lead t)) else None.
Proof.
  unfold Re.match_len, Re.match_here, Re.plus.
  change (Re.run (Re.Seq Re.ws (Re.Star Re.ws)) (c :: t) None
            (fun s' g => Some (s', g)))
    with (if is_space c
          then Re.run (Re.Star Re.ws) t None (fun s' g => Some (s', g))
          else None).
  destruct (is_space c); [|reflexivity].
  rewrite run_star_ws. f_equal.
  pose proof (lstrip_length t). cbn [length]. lia.
Qed.

(** The white-space collapse of [normalize] is [squeeze]. *)
Lemma sub_spaces_squeeze (s : text) :
  Re.sub_from (Re.plus Re.ws) (str " ") 0 s = squeeze false s
  /\ Re.sub_from (Re.plus Re.ws) (str " ") (lead s) s = squeeze true s.
Proof.
  induction s as [|c t [IH0 IH1]]; [split; reflexivity|].
  assert (E0 : Re.sub_from (Re.plus Re.ws) (str " ") 0 (c :: t)
               = squeeze false (c :: t)).
  { cbn [Re.sub_from squeeze]. rewrite match_len_spaces.
    destruct (is_space c).
    - rewrite IH1. reflexivity.
    - now rewrite IH0. }
  split; [exact E0|].
  cbn [lead]. destruct (is_space c) eqn:Hc.
  - cbn [Re.sub_from squeeze]. rewrite Hc. exact IH1.
  - rewrite E0. cbn [squeeze]. rewrite Hc. reflexivity.
Qed.

Lemma squeeze_idempotent (z : text) :
  (forall b, squeeze false (squeeze b z) = squeeze b z)
  /\ squeeze true (squeeze true z) = squeeze true z.
Proof.
  induction z as [|c t [IH1 IH2]]; [split; [intros []|]; reflexivity|].
  split.
  - intros b. cbn [squeeze]. destruct (is_space c) eqn:Hc.
    + destruct b; [apply IH1|].
      cbn [squeeze]. change (is_space " ") with true. cbv iota.
      now rewrite IH2.
    + cbn [squeeze]. rewrite Hc. now rewrite IH1.
  - cbn [squeeze]. destruct (is_space c) eqn:Hc; [exact IH2|].
    cbn [squeeze]. rewrite Hc. now rewrite IH1.
Qed.

Lemma squeeze_length (b : bool) (s : text) : length (squeeze b s) <= length s.
Proof.
  revert b. induction s as [|c t IH]; intros b; [simpl; lia|].
  pose proof (IH true). pose proof (IH false).
  cbn [squeeze]. destruct (is_space c); [destruct b|]; cbn [length]; lia.
Qed.

(** A prefix of a squeezed text is squeezed. *)
Lemma squeezed_prefix (p q : text) : forall b,
  squeeze b (p ++ q) = p ++ q -> squeeze b p = p.
Proof.
  induction p as [|c p IH]; intros b H; [destruct b; reflexivity|].
  cbn [app squeeze] in *. destruct (is_space c) eqn:Hc.
  - destruct b.
    + exfalso. apply (f_equal (@length ascii)) in H.
      pose proof (squeeze_length true (p ++ q)). cbn [length] in H. lia.
    + injection H as Hc' Hp. rewrite <- Hc'. f_equal. now apply IH.
  - injection H as Hp. f_equal. now apply IH.
Qed.

Lemma lstrip_suffix (s : text) : exists sp, s = sp ++ lstrip s.
Proof.
  induction s as [|c t [sp IH]]; [now exists []|].
  cbn [lstrip]. destruct (is_space c).
  - exists (c :: sp). simpl. now rewrite <- IH.
  - now exists [].
Qed.

Lemma rstrip_prefix (s : text) : exists sp, s = rstrip s ++ sp.
Proof.
  unfold rstrip. destruct (lstrip_suffix (rev s)) as [sp H].
  exists (rev sp). rewrite <- rev_app_distr, <- H. now rewrite rev_involutive.
Qed.

(** A squeezed text stays squeezed when the white space at its head is
    dropped. *)
Lemma squeezed_lstrip (u : text) :
  squeeze false u = u -> squeeze false (lstrip u) = lstrip u.
Proof.
  destruct u as [|c t]; [reflexivity|].
  cbn [squeeze lstrip]. destruct (is_space c) eqn:Hc.
  - intros H. injection H as _ Ht.
    destruct t as [|d t']; [reflexivity|].
    cbn [squeeze lstrip] in *. destruct (is_space d) eqn:Hd.
    + exfalso. apply (f_equal (@length ascii)) in Ht.
      pose proof (squeeze_length true t'). cbn [length] in Ht. lia.
    + cbn [squeeze]. rewrite Hd. exact Ht.
  - intros H. cbn [squeeze]. rewrite Hc. exact H.
Qed.

Lemma lstrip_idempotent (s : text) : lstrip (lstrip s) = lstrip s.
Proof.
  induction s as [|c t IH]; [reflexivity|].
  cbn [lstrip]. destruct (is_space c) eqn:Hc; [exact IH|].
  cbn [lstrip]. now rewrite Hc.
Qed.

Lemma rstrip_idempotent (s : text) : rstrip (rstrip s) = rstrip s.
Proof.
  unfold rstrip. now rewrite rev_involutive, lstrip_idempotent.
Qed.

Lemma lstrip_head (s : text) :
  match lstrip s with c :: _ => is_space c = false | [] => True end.
Proof.
  induction s as [|c t IH]; [exact I|].
  cbn [lstrip]. destruct (is_space c) eqn:Hc; [exact IH | exact Hc].
Qed.

Lemma lstrip_app_nonspace (s : text) (c : ascii) (t : text) :
  is_space c = false ->
  exists t', lstrip (s ++ c :: t) = (if true then lstrip (s ++ [c]) else []) ++ t
             /\ lstrip (s ++ [c]) = t' ++ [c].
Proof.
  intros Hc. induction s as [|d s (t' & IH1 & IH2)].
  - exists []. cbn [app lstrip]. rewrite Hc. split; reflexivity.
  - cbn [app lstrip]. destruct (is_space d).
    + exists t'. split; assumption.
    + exists (d :: s). split; [|reflexivity].
      simpl. now rewrite <- app_assoc.
Qed.

(** Stripping at the right keeps a head that is no white space. *)
Lemma rstrip_cons (c : ascii) (t : text) :
  is_space c = false -> exists t', rstrip (c :: t) = c :: t'.
Proof.
  intros Hc. unfold rstrip. cbn [rev].
  destruct (@lstrip_app_nonspace (rev t) c [] Hc) as (t' & _ & E).
  rewrite E, rev_app_distr. simpl. eauto.
Qed.

Lemma strip_split (s : text) : strip s = rstrip (lstrip s).
Proof. reflexivity. Qed.

Lemma strip_idempotent (s : text) : strip (strip s) = strip s.
Proof.
  rewrite !strip_split.
  assert (E : lstrip (rstrip (lstrip s)) = rstrip (lstrip s)).
  { pose proof (lstrip_head s) as H.
    destruct (lstrip s) as [|c t]; [reflexivity|].
    destruct (@rstrip_cons c t H) as [t' ->].
    cbn [lstrip]. now rewrite H. }
  rewrite E. apply rstrip_idempotent.
Qed.

(** Collapsing and stripping once more changes nothing. *)
Lemma collapse_idempotent (z : text) :
  let y := strip (Re.sub (Re.plus Re.ws) (str " ") z) in
  strip (Re.sub (Re.plus Re.ws) (str " ") y) = y.
Proof.
  intros y. unfold Re.sub in *.
  rewrite (proj1 (sub_spaces_squeeze y)).
  assert (Hy : squeeze false y = y).
  { unfold y. rewrite (proj1 (sub_spaces_squeeze z)), strip_split.
    destruct (rstrip_prefix (lstrip (squeeze false z))) as [sp Hsp].
    apply (@squeezed_prefix _ sp). rewrite <- Hsp.
    apply squeezed_lstrip. apply (proj1 (squeeze_idempotent z)). }
  rewrite Hy. unfold y. apply strip_idempotent.
Qed.

Lemma lower_no_upper (s : text) :
  forallb (fun c => negb (is_upper c)) s = true -> lower s = s.
Proof.
  induction s as [|c t IH]; [reflexivity|].
  cbn [forallb]. intros H. apply andb_prop in H. destruct H as [Hc Ht].
  unfold lower in *. cbn [map]. rewrite (IH Ht). f_equal.
  unfold lower_char. destruct (is_upper c); [discriminate | reflexivity].
Qed.

Section Preserved.
Variable P : ascii -> Prop.

Lemma Forall_replace_from (old new : text) :
  Forall P new -> forall s k, Forall P s -> Forall P (replace_from old new k s).
Proof.
  intros Hn s. induction s as [|c t IH]; intros k Hs; [constructor|].
  inversion Hs; subst. cbn [replace_from]. destruct k; [|now apply IH].
  destruct (starts_with old (c :: t)).
  - apply Forall_app. split; [exact Hn | now apply IH].
  - constructor; [assumption | now apply IH].
Qed.

Lemma Forall_sub_from (r : Re.re) (repl : text) :
  Forall P repl -> forall s k, Forall P s -> Forall P (Re.sub_from r repl k s).
Proof.
  intros Hn s. induction s as [|c t IH]; intros k Hs.
  - cbn [Re.sub_from]. destruct k; [|constructor].
    destruct (Re.match_here r []); [exact Hn | constructor].
  - inversion Hs; subst. cbn [Re.sub_from]. destruct k; [|now apply IH].
    destruct (Re.match_len r (c :: t)) as [[|n]|].
    + apply Forall_app. split; [exact Hn|]. constructor; [assumption | now apply IH].
    + apply Forall_app. split; [exact Hn | now apply IH].
    + constructor; [assumption | now apply IH].
Qed.

Lemma Forall_lstrip (s : text) : Forall P s -> Forall P (lstrip s).
Proof.
  induction 1 as [|c t Hc Ht IH]; [constructor|].
  cbn [lstrip]. destruct (is_space c); [exact IH | now constructor].
Qed.

Lemma Forall_strip (s : text) : Forall P s -> Forall P (strip s).
Proof.
  intros H. unfold strip.
  apply Forall_rev, Forall_lstrip, Forall_rev, Forall_lstrip, H.
Qed.

Lemma Forall_fold_replace (l : list (text * text)) :
  Forall (fun kv => Forall P (snd kv)) l ->
  forall s, Forall P s ->
    Forall P (fold_left (fun s kv => replace (lower (fst kv)) (snd kv) s) l s).
Proof.
  induction 1 as [|kv l Hkv Hl IH]; intros s Hs; [exact Hs|].
  cbn [fold_left]. apply IH. unfold replace. now apply Forall_replace_from.
Qed.

Lemma Forall_fold_sub (l : list Re.re) :
  forall s, Forall P s -> Forall P (fold_left (fun s p => Re.sub p [] s) l s).
Proof.
  induction l as [|p l IH]; intros s Hs; [exact Hs|].
  cbn [fold_left]. apply IH. unfold Re.sub. now apply Forall_sub_from.
Qed.

End Preserved.

Lemma sub_cls_filter (p : ascii -> bool) (s : text) :
  Re.sub (Re.Cls p) [] s = filter (fun c => negb (p c)) s.
Proof.
  unfold Re.sub. induction s as [|c t IH]; [reflexivity|].
  cbn [Re.sub_from filter]. unfold Re.match_len, Re.match_here.
  cbn [Re.run]. destruct (p c); cbn [negb].
  - replace (length (c :: t) - length t) with 1 by (cbn [length]; lia).
    exact IH.
  - now rewrite IH.
Qed.

Lemma filter_keeps_all (f : ascii -> bool) (s : text) :
  Forall (fun c => f c = true) s -> filter f s = s.
Proof.
  induction 1 as [|c t Hc Ht IH]; [reflexivity|].
  cbn [filter]. now rewrite Hc, IH.
Qed.

Lemma Forall_filter (f : ascii -> bool) (s : text) :
  Forall (fun c => f c = true) (filter f s).
Proof.
  induction s as [|c t IH]; [constructor|].
  cbn [filter]. destruct (f c) eqn:E; [now constructor | exact IH].
Qed.

Lemma replace_absent (old new s : text) :
  contains old s = false -> replace old new s = s.
Proof.
  unfold replace. induction s as [|c t IH]; [reflexivity|].
  cbn [contains replace_from]. intros H.
  apply orb_false_elim in H. destruct H as [H1 H2].
  rewrite H1. now rewrite IH.
Qed.

Lemma sub_absent (r : Re.re) (repl s : text) :
  Re.search r s = None -> Re.sub r repl s = s.
Proof.
  unfold Re.search, Re.sub. generalize 0 at 1.
  induction s as [|c t IH]; intros i H; cbn [Re.search_from Re.sub_from] in *.
  - destruct (Re.match_here r []) as [[s' g]|]; [discriminate | reflexivity].
  - unfold Re.match_len.
    destruct (Re.match_here r (c :: t)) as [[s' g]|]; [discriminate|].
    f_equal. exact (IH _ H).
Qed.

Lemma fold_replace_settled (l : list (text * text)) (y : text) :
  forallb (fun kv => negb (contains (lower (fst kv)) y)) l = true ->
  fold_left (fun s kv => replace (lower (fst kv)) (snd kv) s) l y = y.
Proof.
  induction l as [|kv l IH]; [reflexivity|].
  cbn [forallb fold_left]. intros H. apply andb_prop in H. destruct H as [H1 H2].
  rewrite replace_absent; [now apply IH|].
  now destruct (contains (lower (fst kv)) y).
Qed.

Lemma fold_sub_settled (l : list Re.re) (y : text) :
  forallb (fun p => negb (is_some (Re.search p y))) l = true ->
  fold_left (fun s p => Re.sub p [] s) l y = y.
Proof.
  induction l as [|p l IH]; [reflexivity|].
  cbn [forallb fold_left]. intros H. apply andb_prop in H. destruct H as [H1 H2].
  rewrite sub_absent; [now apply IH|].
  now destruct (Re.search p y).
Qed.

Lemma replacements_ascii :
  Forall (fun kv => Forall (fun c => is_ascii c = true) (snd kv))
         TrackNormalizer.REPLACEMENTS.
Proof. repeat constructor. Qed.

Lemma remove_patterns_split :
  TrackNormalizer.REMOVE_PATTERNS
  = firstn 6 TrackNormalizer.REMOVE_PATTERNS ++ [Re.Cls is_quote].
Proof. reflexivity. Qed.

(** What [normalize] returns is ASCII text without quote characters. *)
Lemma normalize_ascii (U : Unicode) (x : text) :
  unicode_lawful U ->
  Forall (fun c => is_ascii c = true) (TrackNormalizer.normalize x)
  /\ Forall (fun c => negb (is_quote c) = true) (TrackNormalizer.normalize x).
Proof.
  intros [L1 _]. unfold TrackNormalizer.normalize. split.
  - apply Forall_strip. unfold Re.sub at 1.
    apply Forall_sub_from; [repeat constructor|].
    apply Forall_fold_sub.
    apply Forall_fold_replace; [exact replacements_ascii|].
    apply L1.
  - apply Forall_strip. unfold Re.sub at 1.
    apply Forall_sub_from; [repeat constructor|].
    rewrite remove_patterns_split, fold_left_app. cbn [fold_left].
    rewrite sub_cls_filter. apply Forall_filter.
Qed.

Lemma lower_ascii (s : text) :
  Forall (fun c => is_ascii c = true) s ->
  Forall (fun c => is_ascii c = true) (lower s).
Proof.
  intros H. unfold lower. rewrite Forall_forall in *. intros c Hc.
  apply in_map_iff in Hc. destruct Hc as (d & <- & Hd).
  specialize (H d Hd). revert H.
  destruct d as [[] [] [] [] [] [] [] []]; intros H;
    first [reflexivity | exact H].
Qed.

Lemma ascii_unicode_lawful : unicode_lawful ascii_unicode.
Proof.
  split; intros s; cbn [lower_nfkd_ascii ascii_unicode].
  - apply Forall_filter.
  - intros H. apply filter_keeps_all. now apply lower_ascii.
Qed.

(** On ASCII text every lawful instance computes what [ascii_unicode]
    computes. *)
Lemma normalize_ascii_input (U : Unicode) (x : text) :
  unicode_lawful U ->
  Forall (fun c => is_ascii c = true) x ->
  @TrackNormalizer.normalize U x = @TrackNormalizer.normalize ascii_unicode x
  /\ @TrackNormalizer.normalize_for_search U x
     = @TrackNormalizer.normalize_for_search ascii_unicode x.
Proof.
  intros [_ L2] Hx.
  assert (E : @TrackNormalizer.normalize U x
              = @TrackNormalizer.normalize ascii_unicode x).
  { unfold TrackNormalizer.normalize.
    rewrite (L2 x Hx), (proj2 ascii_unicode_lawful x Hx). reflexivity. }
  split; [exact E|].
  unfold TrackNormalizer.normalize_for_search. now rewrite E.
Qed.

Lemma lower_char_not_upper (c : ascii) : is_upper (lower_char c) = false.
Proof. destruct c as [[] [] [] [] [] [] [] []]; reflexivity. Qed.

Lemma replacements_lower :
  Forall (fun kv => Forall (fun c => is_upper c = false) (snd kv))
         TrackNormalizer.REPLACEMENTS.
Proof. repeat constructor. Qed.

(** The normal form of an ASCII text has no upper-case letter: of the three
    conditions of [settled] the first then holds by itself. *)
Lemma normalize_ascii_input_lower (U : Unicode) (x : text) :
  unicode_lawful U ->
  Forall (fun c => is_ascii c = true) x ->
  forallb (fun c => negb (is_upper c)) (TrackNormalizer.normalize x) = true.
Proof.
  intros [_ L2] Hx. apply forallb_forall. intros c Hc.
  assert (H : Forall (fun c => is_upper c = false)
                     (TrackNormalizer.normalize x)).
  { unfold TrackNormalizer.normalize. rewrite (L2 x Hx).
    apply Forall_strip. unfold Re.sub at 1.
    apply Forall_sub_from; [repeat constructor|].
    apply Forall_fold_sub.
    apply Forall_fold_replace; [exact replacements_lower|].
    unfold lower. apply Forall_forall. intros d Hd.
    apply in_map_iff in Hd. destruct Hd as (e & <- & _).
    apply lower_char_not_upper. }
  rewrite Forall_forall in H. now rewrite (H c Hc).
Qed.

(** C6, amended. [normalize] is idempotent on every text whose normal form
    is settled: no upper-case letter (the Unicode step can leave one), no
    replacement key and no parenthetical edition marker is left in it. *)
Theorem normalize_idempotent_when_settled (U : Unicode) (x : text) :
  unicode_lawful U ->
  settled (TrackNormalizer.normalize x) = true ->
  TrackNormalizer.normalize (TrackNormalizer.normalize x)
  = TrackNormalizer.normalize x.
Proof.
  intros L H. unfold settled in H.
  apply andb_prop in H. destruct H as [H Hp].
  apply andb_prop in H. destruct H as [Hu Hr].
  destruct (normalize_ascii x L) as [Hascii Hquote].
  destruct L as [_ L2].
  set (y := TrackNormalizer.normalize x) in *.
  unfold TrackNormalizer.normalize at 1.
  rewrite (L2 y Hascii), (lower_no_upper _ Hu).
  rewrite (fold_replace_settled _ _ Hr).
  rewrite remove_patterns_split, fold_left_app.
  rewrite (fold_sub_settled _ _ Hp). cbn [fold_left].
  rewrite sub_cls_filter, (filter_keeps_all _ Hquote).
  unfold y, TrackNormalizer.normalize. apply collapse_idempotent.
Qed.

Lemma normalize_idempotent_when_settled_witness :
  @TrackNormalizer.normalize ascii_unicode
    (@TrackNormalizer.normalize ascii_unicode
       (str "Daft Punk & Pharrell (Original Mix)"))
  = @TrackNormalizer.normalize ascii_unicode
      (str "Daft Punk & Pharrell (Original Mix)").
Proof.
  apply (@normalize_idempotent_when_settled ascii_unicode
           (str "Daft Punk & Pharrell (Original Mix)") ascii_unicode_lawful).
  vm_compute. reflexivity.
Defined.

(** C6, as stated: [normalize] would be idempotent.  In "Rock '&' Roll" the
    quote characters keep the ampersand from being replaced; they are
    removed afterwards, and a second pass replaces the ampersand. *)
Lemma normalize_not_idempotent :
  let normalize := @TrackNormalizer.normalize ascii_unicode in
  normalize (str "Rock '&' Roll") = str "rock & roll" /\
  normalize (normalize (str "Rock '&' Roll")) = str "rock and roll" /\
  normalize (normalize (str "Rock '&' Roll"))
  <> normalize (str "Rock '&' Roll").
Proof.
  split; [|split]; vm_compute; [reflexivity | reflexivity | discriminate].
Qed.

(** * Further properties *)

(** * Further properties *)

(** ** The shape of normalized text *)

Lemma squeezed_blanks (u : text) : forall b,
  squeeze b u = u -> Forall (fun c => is_space c = true -> c = " "%char) u.
Proof.
  induction u as [|c t IH]; intros b H; [constructor|].
  cbn [squeeze] in H. destruct (is_space c) eqn:Hc.
  - destruct b.
    + exfalso. apply (f_equal (@length ascii)) in H.
      pose proof (squeeze_length true t). cbn [length] in H. lia.
    + injection H as Hc' Ht.
      constructor; [intros _; now symmetry | now apply (IH true)].
  - injection H as Ht.
    constructor; [intros E; congruence | now apply (IH false)].
Qed.

Lemma blank_pair_head (c : ascii) (t : text) :
  starts_with (str "  ") (c :: t)
  = Ascii.eqb " " c && match t with
                       | d :: _ => Ascii.eqb " " d
                       | [] => false
                       end.
Proof.
  destruct t as [|d t']; cbn [str list_ascii_of_string starts_with].
  - reflexivity.
  - now rewrite andb_true_r.
Qed.

Lemma squeezed_no_double_blank (u : text) : forall b,
  squeeze b u = u -> contains (str "  ") u = false.
Proof.
  induction u as [|c t IH]; intros b H; [reflexivity|].
  cbn [contains]. rewrite blank_pair_head.
  cbn [squeeze] in H. destruct (is_space c) eqn:Hc.
  - destruct b.
    + exfalso. apply (f_equal (@length ascii)) in H.
      pose proof (squeeze_length true t). cbn [length] in H. lia.
    + injection H as Hc' Ht. rewrite (IH true Ht), orb_false_r.
      destruct t as [|d t']; [apply andb_false_r|].
      destruct (Ascii.eqb_spec " "%char d) as [<-|]; [|apply andb_false_r].
      exfalso. cbn [squeeze] in Ht. change (is_space " ") with true in Ht.
      cbv iota in Ht. apply (f_equal (@length ascii)) in Ht.
      pose proof (squeeze_length true t'). cbn [length] in Ht. lia.
  - injection H as Ht. rewrite (IH false Ht), orb_false_r.
    destruct (Ascii.eqb_spec " "%char c) as [<-|]; [discriminate | reflexivity].
Qed.

(** The collapse and strip at the end of both normalizers leave a text
    that [squeeze] and [strip] do not change. *)
Lemma collapsed_fixed (z : text) :
  let y := strip (Re.sub (Re.plus Re.ws) (str " ") z) in
  squeeze false y = y /\ strip y = y.
Proof.
  intros y. split.
  - unfold y, Re.sub. rewrite (proj1 (sub_spaces_squeeze z)), strip_split.
    destruct (rstrip_prefix (lstrip (squeeze false z))) as [sp Hsp].
    apply (@squeezed_prefix _ sp). rewrite <- Hsp.
    apply squeezed_lstrip. apply (proj1 (squeeze_idempotent z)).
  - apply strip_idempotent.
Qed.

(** X1. [normalize] returns ASCII text without quote characters, in which the
    only white space is the single blank between two words. *)
Theorem normalize_shape (U : Unicode) (x : text) :
  unicode_lawful U ->
  let y := TrackNormalizer.normalize x in
  Forall (fun c => is_ascii c = true /\ is_quote c = false) y /\
  Forall (fun c => is_space c = true -> c = " "%char) y /\
  contains (str "  ") y = false /\
  strip y = y.
Proof.
  intros L y. destruct (normalize_ascii x L) as [Hp Hq]. fold y in Hp, Hq.
  assert (Hfix : squeeze false y = y /\ strip y = y).
  { unfold y, TrackNormalizer.normalize. cbv zeta.
    match goal with
    | |- context [strip (Re.sub (Re.plus Re.ws) (str " ") ?z)] =>
        exact (collapsed_fixed z)
    end. }
  destruct Hfix as [Hs Ht].
  split; [|split; [|split]].
  - rewrite Forall_forall in *. intros c Hc.
    specialize (Hp c Hc). specialize (Hq c Hc).
    split; [exact Hp | apply negb_true_iff; exact Hq].
  - exact (squeezed_blanks _ Hs).
  - exact (squeezed_no_double_blank _ Hs).
  - exact Ht.
Qed.

Lemma sub_cls_from (Q : ascii -> Prop) (p : ascii -> bool) (repl : text) :
  Forall Q repl -> (forall c, p c = false -> Q c) ->
  forall s k, Forall Q (Re.sub_from (Re.Cls p) repl k s).
Proof.
  intros Hr Hq s. induction s as [|c t IH]; intros k.
  - cbn [Re.sub_from]. destruct k; [|constructor].
    destruct (Re.match_here (Re.Cls p) []); [exact Hr | constructor].
  - cbn [Re.sub_from]. destruct k; [|apply IH].
    unfold Re.match_len, Re.match_here. cbn [Re.run].
    destruct (p c) eqn:Hc.
    + replace (length (c :: t) - length t) with 1 by (cbn [length]; lia).
      apply Forall_app. split; [exact Hr | apply IH].
    + constructor; [now apply Hq | apply IH].
Qed.

(** X2. [normalize_for_search] returns a query-safe text: ASCII letters, digits
    and underscores, in words separated by single blanks. *)
Theorem normalize_for_search_shape (U : Unicode) (x : text) :
  unicode_lawful U ->
  let y := TrackNormalizer.normalize_for_search x in
  Forall (fun c => is_ascii c = true
                   /\ (is_word c = true \/ c = " "%char)) y /\
  contains (str "  ") y = false /\
  strip y = y.
Proof.
  intros L y.
  assert (Hfix : squeeze false y = y /\ strip y = y).
  { unfold y, TrackNormalizer.normalize_for_search. cbv zeta.
    match goal with
    | |- context [strip (Re.sub (Re.plus Re.ws) (str " ") ?z)] =>
        exact (collapsed_fixed z)
    end. }
  destruct Hfix as [Hs Ht].
  split; [|split; [exact (squeezed_no_double_blank _ Hs) | exact Ht]].
  assert (Hascii : Forall (fun c => is_ascii c = true) y).
  { unfold y, TrackNormalizer.normalize_for_search. cbv zeta.
    apply Forall_strip. unfold Re.sub.
    apply Forall_sub_from; [repeat constructor|].
    apply Forall_sub_from; [repeat constructor|].
    apply Forall_sub_from; [constructor|].
    apply Forall_sub_from; [constructor|].
    apply (proj1 (normalize_ascii x L)). }
  assert (Hword : Forall (fun c => is_word c || is_space c = true) y).
  { unfold y, TrackNormalizer.normalize_for_search. cbv zeta.
    apply Forall_strip. unfold Re.sub.
    apply Forall_sub_from; [repeat constructor|].
    apply sub_cls_from; [repeat constructor|].
    intros c Hc. now apply negb_false_iff in Hc. }
  pose proof (squeezed_blanks _ Hs) as Hblank.
  rewrite Forall_forall in *. intros c Hc.
  specialize (Hascii c Hc). specialize (Hword c Hc). specialize (Hblank c Hc).
  split; [exact Hascii|].
  destruct (is_space c).
  - right. exact (Hblank eq_refl).
  - left. rewrite orb_false_r in Hword. exact Hword.
Qed.

(** ** What the normalizer and the scorer extract *)

Lemma run_star_ws_stop (A : Type) (k : Re.cont A) (c : ascii) (t : text)
  (g : option text) :
  is_space c = false ->
  Re.run (Re.Star Re.ws) (c :: t) g k = k (c :: t) g.
Proof.
  intros Hc. unfold Re.ws. cbn [Re.run length]. rewrite Hc. reflexivity.
Qed.

Lemma separator_not_space (c : ascii) :
  is_separator c = true -> is_space c = false.
Proof.
  unfold is_separator. cbn [str list_ascii_of_string existsb]. intros H.
  repeat (apply orb_prop in H; destruct H as [H|H]);
    try discriminate; apply Ascii.eqb_eq in H; subst c; reflexivity.
Qed.

(** Where a comma, an ampersand or a plus sign stands, the separator
    pattern matches. *)
Lemma separator_matches (c : ascii) (t : text) :
  is_separator c = true ->
  Re.match_len TrackNormalizer.ARTIST_SEPARATOR (c :: t) = Some (S (lead t)).
Proof.
  intros Hc. pose proof (separator_not_space c Hc) as Hs.
  unfold Re.match_len, Re.match_here, TrackNormalizer.ARTIST_SEPARATOR.
  change (Re.run (Re.Alt ?a ?b) ?s ?g ?k)
    with (match Re.run a s g k with Some x => Some x | None => Re.run b s g k end).
  assert (E : Re.run (Re.seqs [Re.Star Re.ws; Re.one_of ",&+"; Re.Star Re.ws])
                (c :: t) None (fun s' g => Some (s', g))
              = Some (lstrip t, None)).
  { change (Re.seqs [Re.Star Re.ws; Re.one_of ",&+"; Re.Star Re.ws])
      with (Re.Seq (Re.Star Re.ws) (Re.Seq (Re.one_of ",&+") (Re.Star Re.ws))).
    change (Re.run (Re.Seq ?a ?b) ?s ?g ?k)
      with (Re.run a s g (fun s' g' => Re.run b s' g' k)).
    rewrite run_star_ws_stop by exact Hs.
    change (Re.run (Re.Seq ?a ?b) ?s ?g ?k)
      with (Re.run a s g (fun s' g' => Re.run b s' g' k)).
    unfold Re.one_of. cbn [Re.run]. fold (is_separator c). rewrite Hc.
    apply run_star_ws. }
  rewrite E. f_equal. pose proof (lstrip_length t). cbn [length]. lia.
Qed.

Lemma split_from_pieces (P : ascii -> Prop) (r : Re.re) (s : text) :
  forall k cur,
    Forall P s -> Forall P cur -> Forall (Forall P) (Re.split_from r k cur s).
Proof.
  induction s as [|c t IH]; intros k cur Hs Hcur.
  - cbn [Re.split_from]. constructor; [apply Forall_rev; exact Hcur | constructor].
  - inversion Hs as [|? ? Hc Ht]; subst. cbn [Re.split_from].
    destruct k; [|apply IH; assumption].
    destruct (Re.match_len r (c :: t)) as [[|n]|].
    + apply IH; [exact Ht | constructor; assumption].
    + constructor; [apply Forall_rev; exact Hcur | apply IH; [exact Ht | constructor]].
    + apply IH; [exact Ht | constructor; assumption].
Qed.

(** A character at which the pattern matches a non-empty text never
    enters a piece. *)
Lemma split_from_excludes (bad : ascii -> bool) (r : Re.re) :
  (forall c t, bad c = true -> exists n, Re.match_len r (c :: t) = Some (S n)) ->
  forall s k cur,
    Forall (fun c => bad c = false) cur ->
    Forall (Forall (fun c => bad c = false)) (Re.split_from r k cur s).
Proof.
  intros Hbad s. induction s as [|c t IH]; intros k cur Hcur.
  - cbn [Re.split_from]. constructor; [apply Forall_rev; exact Hcur | constructor].
  - cbn [Re.split_from]. destruct k; [|apply IH; exact Hcur].
    destruct (bad c) eqn:Hc.
    + destruct (Hbad c t Hc) as [n ->].
      constructor; [apply Forall_rev; exact Hcur | apply IH; constructor].
    + destruct (Re.match_len r (c :: t)) as [[|n]|].
      * apply IH. constructor; assumption.
      * constructor; [apply Forall_rev; exact Hcur | apply IH; constructor].
      * apply IH. constructor; assumption.
Qed.

(** X3. Every artist that [extract_artists] returns is a non-empty piece of
    the lower-cased input, without white space at either end and without
    comma, ampersand or plus sign. *)
Theorem extract_artists_pieces (artist_string a : text) :
  In a (TrackNormalizer.extract_artists artist_string) ->
  a <> [] /\ strip a = a /\
  Forall (fun c => is_upper c = false) a /\
  Forall (fun c => c <> ","%char /\ c <> "&"%char /\ c <> "+"%char) a.
Proof.
  unfold TrackNormalizer.extract_artists. cbv zeta. intros H.
  apply in_map_iff in H. destruct H as (p & <- & Hp).
  apply filter_In in Hp. destruct Hp as [Hp Hne].
  split; [|split; [|split]].
  - intros E. rewrite E in Hne. discriminate.
  - apply strip_idempotent.
  - apply Forall_strip.
    assert (Hall : Forall (Forall (fun c => is_upper c = false))
                     (Re.split TrackNormalizer.ARTIST_SEPARATOR
                        (lower artist_string))).
    { unfold Re.split. apply split_from_pieces; [|constructor].
      unfold lower. apply Forall_forall. intros d Hd.
      apply in_map_iff in Hd. destruct Hd as (e & <- & _).
      apply lower_char_not_upper. }
    rewrite Forall_forall in Hall. exact (Hall p Hp).
  - apply Forall_strip.
    assert (Hall : Forall (Forall (fun c => is_separator c = false))
                     (Re.split TrackNormalizer.ARTIST_SEPARATOR
                        (lower artist_string))).
    { unfold Re.split. apply split_from_excludes; [|constructor].
      intros c t Hc. exists (lead t). exact (separator_matches c t Hc). }
    rewrite Forall_forall in Hall. specialize (Hall p Hp).
    rewrite Forall_forall in *. intros c Hc. specialize (Hall c Hc).
    unfold is_separator in Hall.
    cbn [str list_ascii_of_string existsb] in Hall.
    repeat split; intros ->; discriminate.
Qed.

(** X4. A tag that [_extract_remix] returns is non-empty, has no upper-case
    letter and no white space at either end. *)
Theorem _extract_remix_tag_shape (title tag : text) :
  Scorer._extract_remix title = Some tag ->
  tag <> [] /\ strip tag = tag /\ Forall (fun c => is_upper c = false) tag.
Proof.
  intros H. split; [exact (_extract_remix_nonempty _ H)|].
  assert (E : exists g, tag = strip (lower g)).
  { unfold Scorer._extract_remix in H. cbv zeta in H.
    destruct (Re.search Scorer.REMIX_PAREN_PATTERN _) as [m|].
    - destruct (Re.f_group m) as [g|]; [|discriminate].
      injection H as <-. now exists g.
    - destruct (Re.search Scorer.REMIX_DASH_PATTERN _) as [m|]; [|discriminate].
      destruct (Re.f_group m) as [g|]; [|discriminate].
      injection H as <-. now exists g. }
  destruct E as [g ->]. split; [apply strip_idempotent|].
  apply Forall_strip. unfold lower. apply Forall_forall. intros d Hd.
  apply in_map_iff in Hd. destruct Hd as (e & <- & _).
  apply lower_char_not_upper.
Qed.

(** ** Caps on the score *)

Section ScoreCaps.
Context {F : Fuzz} {U : Unicode}.
Open Scope Q_scope.

Lemma score_match_sum (self : TrackScorer) m s :
  Scorer.score_match self m s
  = Scorer.artist_component self m s * 0.30
    + Scorer.title_component self m s * 0.40
    + Scorer.remix_component self m s * 0.30.
Proof.
  unfold Scorer.score_match, Scorer.artist_component,
    Scorer.title_component, Scorer.remix_component.
  destruct (Scorer.components self m s) as [[a t] r]. reflexivity.
Qed.

Lemma from_score_below_80 (q : Q) : q < 80 -> from_score q = LOW.
Proof.
  intros H. unfold from_score.
  destruct (Qle_bool_spec 95 q); [exfalso; lra|].
  destruct (Qle_bool_spec 90 q); [exfalso; lra|].
  destruct (Qle_bool_spec 80 q); [exfalso; lra | reflexivity].
Qed.

Lemma from_score_below_90 (q : Q) :
  q < 90 -> from_score q = MEDIUM \/ from_score q = LOW.
Proof.
  intros H. unfold from_score.
  destruct (Qle_bool_spec 95 q); [exfalso; lra|].
  destruct (Qle_bool_spec 90 q); [exfalso; lra|].
  destruct (Qle_bool_spec 80 q); [now left | now right].
Qed.

(** X5. A version mismatch caps the score: when exactly one of the two titles
    carries a remix tag, [score_match] is at most 70 and the tier of the
    score is LOW. *)
Theorem one_sided_tag_caps_score (self : TrackScorer) (m : MixTrack.t)
  (s : SpotifyTrack.t) :
  fuzz_bounded F ->
  xorb (is_some (Scorer._extract_remix (MixTrack.title m)))
       (is_some (Scorer._extract_remix (SpotifyTrack.name s))) = true ->
  Scorer.score_match self m s <= 70 /\
  from_score (Scorer.score_match self m s) = LOW.
Proof.
  intros HB Hx.
  assert (Hr : Scorer.remix_component self m s = 0).
  { rewrite <- !truthy_extract in Hx.
    unfold Scorer.remix_component, Scorer.components. cbv zeta. cbn [snd].
    destruct (truthy (Scorer._extract_remix (MixTrack.title m))),
      (truthy (Scorer._extract_remix (SpotifyTrack.name s)));
      try discriminate Hx; reflexivity. }
  destruct (components_bounds self m s HB) as (Ha & Ht & _).
  assert (Hle : Scorer.score_match self m s <= 70).
  { rewrite score_match_sum, Hr. lra. }
  split; [exact Hle|]. apply from_score_below_80. lra.
Qed.

(** X6. Partial artist coverage caps the score: when some extracted source
    artist has no candidate artist of similarity 85 or more,
    [score_match] is at most 88, so its tier is neither EXACT nor HIGH. *)
Theorem uncovered_artist_caps_score (self : TrackScorer) (m : MixTrack.t)
  (s : SpotifyTrack.t) (a : text) :
  fuzz_bounded F ->
  In a (TrackNormalizer.extract_artists
          (TrackNormalizer.normalize (MixTrack.artist m))) ->
  (forall c, In c (SpotifyTrack.artists s) ->
             ratio a (TrackNormalizer.normalize c) < 85) ->
  Scorer.score_match self m s <= 88 /\
  (from_score (Scorer.score_match self m s) = MEDIUM \/
   from_score (Scorer.score_match self m s) = LOW).
Proof.
  intros HB Hin Hlow.
  set (artists := TrackNormalizer.extract_artists
                    (TrackNormalizer.normalize (MixTrack.artist m))) in *.
  set (sp := map TrackNormalizer.normalize (SpotifyTrack.artists s)).
  assert (Hno : Scorer.counts sp a = false).
  { destruct (Scorer.counts sp a) eqn:E; [|reflexivity].
    apply counts_iff in E. destruct E as (c & Hc & H85).
    unfold sp in Hc. apply in_map_iff in Hc. destruct Hc as (c0 & <- & Hc0).
    specialize (Hlow c0 Hc0). exfalso. lra. }
  assert (Ha : Scorer.artist_component self m s <= 60).
  { unfold Scorer.artist_component, Scorer.components. cbv zeta. cbn [fst].
    rewrite _score_artist_strict_cases. fold artists. fold sp.
    pose proof (filter_length_le (Scorer.counts sp) artists) as Hle.
    destruct artists as [|a0 rest] eqn:Eart; [lra|]. rewrite <- Eart in *.
    destruct (Nat.eqb_spec (length (filter (Scorer.counts sp) artists))
                           (length artists)) as [Heq|Hneq].
    - exfalso. pose proof (proj1 (filter_all (Scorer.counts sp) artists) Heq a Hin).
      congruence.
    - destruct (Nat.ltb_spec 0 (length (filter (Scorer.counts sp) artists)))
        as [Hpos|Hzero]; [|lra].
      pose proof (partial_score_bounds Hpos Hle). lra. }
  destruct (components_bounds self m s HB) as (_ & Ht & Hr).
  assert (Hle : Scorer.score_match self m s <= 88).
  { rewrite score_match_sum. lra. }
  split; [exact Hle|]. apply from_score_below_90. lra.
Qed.


Lemma text_eqb_length (a : text) : forall b,
  text_eqb a b = true -> length a = length b.
Proof.
  induction a as [|x a IH]; intros [|y b] H; cbn [text_eqb] in H;
    try discriminate H; [reflexivity|].
  apply andb_prop in H. cbn [length]. f_equal. apply IH. apply H.
Qed.

(** X7. A gap in length caps the score: when the normalized base titles
    differ in length by more than ten characters, the title sub-score is
    at most 80 and [score_match] at most 92, so the tier is never
    EXACT. *)
Theorem title_length_gap_caps_score (self : TrackScorer) (m : MixTrack.t)
  (s : SpotifyTrack.t) :
  fuzz_bounded F ->
  (10 < Scorer.abs_diff
          (length (TrackNormalizer.normalize
                     (Scorer._remove_remix (MixTrack.title m))))
          (length (TrackNormalizer.normalize
                     (Scorer._remove_remix (SpotifyTrack.name s)))))%nat ->
  Scorer.title_component self m s <= 80 /\
  Scorer.score_match self m s <= 92 /\
  from_score (Scorer.score_match self m s) <> EXACT.
Proof.
  intros HB Hgap.
  assert (Ht : Scorer.title_component self m s <= 80).
  { unfold Scorer.title_component, Scorer.components. cbv zeta. cbn [fst snd].
    unfold Scorer._score_title_strict.
    set (a := TrackNormalizer.normalize (Scorer._remove_remix (MixTrack.title m)))
      in *.
    set (b := TrackNormalizer.normalize
                (Scorer._remove_remix (SpotifyTrack.name s))) in *.
    destruct (text_eqb a b) eqn:E.
    - apply text_eqb_length in E. unfold Scorer.abs_diff in Hgap.
      exfalso. rewrite E in Hgap. revert Hgap. clear.
      generalize (length b). intros n H. lia.
    - apply Nat.ltb_lt in Hgap. rewrite Hgap.
      destruct (HB a b) as (Hr & _). lra. }
  destruct (components_bounds self m s HB) as (Ha & _ & Hr).
  assert (Hle : Scorer.score_match self m s <= 92).
  { rewrite score_match_sum. lra. }
  split; [exact Ht|]. split; [exact Hle|].
  unfold from_score.
  destruct (Qle_bool_spec 95 (Scorer.score_match self m s)) as [H95|_].
  - exfalso. lra.
  - destruct (Qle_bool 90 _); [discriminate|].
    destruct (Qle_bool 80 _); discriminate.
Qed.

(** X8. No artist recognized: when no extracted source artist has a candidate
    artist of similarity 85 or more, and also when no artist is extracted
    at all, the artist sub-score is 0, [score_match] is at most 70 and
    the tier is LOW. *)
Theorem no_artist_caps_score (self : TrackScorer) (m : MixTrack.t)
  (s : SpotifyTrack.t) :
  fuzz_bounded F ->
  (forall a c,
     In a (TrackNormalizer.extract_artists
             (TrackNormalizer.normalize (MixTrack.artist m))) ->
     In c (SpotifyTrack.artists s) ->
     ratio a (TrackNormalizer.normalize c) < 85) ->
  Scorer.artist_component self m s == 0 /\
  Scorer.score_match self m s <= 70 /\
  from_score (Scorer.score_match self m s) = LOW.
Proof.
  intros HB Hlow.
  set (artists := TrackNormalizer.extract_artists
                    (TrackNormalizer.normalize (MixTrack.artist m))) in *.
  set (sp := map TrackNormalizer.normalize (SpotifyTrack.artists s)).
  assert (Hno : forall a, In a artists -> Scorer.counts sp a = false).
  { intros a Hin. destruct (Scorer.counts sp a) eqn:E; [|reflexivity].
    apply counts_iff in E. destruct E as (c & Hc & H85).
    unfold sp in Hc. apply in_map_iff in Hc. destruct Hc as (c0 & <- & Hc0).
    specialize (Hlow a c0 Hin Hc0). exfalso. lra. }
  assert (Ha : Scorer.artist_component self m s == 0).
  { unfold Scorer.artist_component, Scorer.components. cbv zeta. cbn [fst].
    rewrite _score_artist_strict_cases. fold artists. fold sp.
    assert (Hz : length (filter (Scorer.counts sp) artists) = 0%nat).
    { clear -Hno. induction artists as [|a t IH]; [reflexivity|].
      cbn [filter]. rewrite (Hno a (or_introl eq_refl)).
      apply IH. intros x Hx. apply Hno. right. exact Hx. }
    rewrite Hz. destruct artists as [|a0 rest]; [reflexivity|].
    cbn [length Nat.eqb Nat.ltb Nat.leb]. reflexivity. }
  destruct (components_bounds self m s HB) as (_ & Ht & Hr).
  assert (Hle : Scorer.score_match self m s <= 70).
  { rewrite score_match_sum, Ha. lra. }
  split; [exact Ha|]. split; [exact Hle|]. apply from_score_below_80. lra.
Qed.

(** X9. The remix sub-score takes three values only, 0, 70 and 100, and it is
    100 when neither title carries a remix tag. *)
Theorem remix_component_values (self : TrackScorer) (m : MixTrack.t)
  (s : SpotifyTrack.t) :
  (Scorer.remix_component self m s = 0
   \/ Scorer.remix_component self m s = 70
   \/ Scorer.remix_component self m s = 100) /\
  (Scorer._extract_remix (MixTrack.title m) = None ->
   Scorer._extract_remix (SpotifyTrack.name s) = None ->
   Scorer.remix_component self m s = 100).
Proof.
  unfold Scorer.remix_component, Scorer.components. cbv zeta. cbn [snd].
  unfold Scorer._score_remix.
  split.
  - destruct (truthy (Scorer._extract_remix (MixTrack.title m))),
      (truthy (Scorer._extract_remix (SpotifyTrack.name s)));
      cbn [negb andb orb]; try (left; reflexivity); try (right; right; reflexivity).
    destruct (Scorer._extract_remix (MixTrack.title m)),
      (Scorer._extract_remix (SpotifyTrack.name s)); try (left; reflexivity).
    destruct (Qle_bool 75 _); [right; right; reflexivity|].
    destruct (Qle_bool 60 _); [right; left; reflexivity | left; reflexivity].
  - intros -> ->. reflexivity.
Qed.

End ScoreCaps.

(** ** More about the cascade *)

Section CascadeMore.
Context {F : Fuzz} {U : Unicode}.
Variable World : Type.
Variable Error : Type.
Variable search_backend :
  text -> nat -> World -> (Error + list SpotifyTrack.t) * World.
Variable self : TrackMatcher.t.

Abbreviation State2 := (TrackMatcher.State World).
Abbreviation find_match2 := (TrackMatcher.find_match search_backend self).
Abbreviation evaluate2 := (TrackMatcher._evaluate_results self).
Abbreviation cascade2 := (TrackMatcher.cascade (Error:=Error) (World:=World)).
Abbreviation passes2 := (TrackMatcher.passes (Error:=Error) (World:=World)).
Abbreviation strategies2 := (TrackMatcher.strategies search_backend self).

(** The searches of the loop are a prefix of the searches of its
    strategies, whatever the strategies answer. *)
Lemma cascade_calls track (l : list (TrackMatcher.strategy World Error))
  (plan : list Call) :
  Forall2 (fun nf c => forall st : State2,
             TrackMatcher.calls (snd (snd nf track (fst nf) st))
             = TrackMatcher.calls st ++ [c]) l plan ->
  forall best (st : State2),
  exists k, k <= length l /\ (l <> [] -> 1 <= k) /\
    TrackMatcher.calls (snd (cascade2 l best track st))
    = TrackMatcher.calls st ++ firstn k plan.
Proof.
  induction 1 as [|[name f] c l plan Hc _ IH]; intros best st.
  - exists 0. cbn [TrackMatcher.cascade firstn length]. unfold TrackMatcher.ret.
    cbn [snd]. rewrite app_nil_r.
    split; [lia|]. split; [intros H; exfalso; apply H; reflexivity | reflexivity].
  - cbn [TrackMatcher.cascade]. unfold TrackMatcher.bind.
    specialize (Hc st). cbn [fst snd] in Hc.
    destruct (f track name st) as [[e|r] st1]; cbn [snd] in Hc.
    + exists 1. cbn [snd firstn length]. rewrite Hc.
      repeat split; lia.
    + destruct (TrackMatcher.is_high r).
      * exists 1. unfold TrackMatcher.ret. cbn [snd firstn length]. rewrite Hc.
        repeat split; lia.
      * match goal with
        | |- context [cascade2 l ?b track st1] =>
            destruct (IH b st1) as (k & Hk & _ & Hcalls)
        end.
        exists (S k). rewrite Hcalls, Hc, <- app_assoc. cbn [app firstn length].
        repeat split; lia.
Qed.

(** The four searches of [find_match], in the order of the strategies. *)
Lemma strategies_plan track :
  Forall2 (fun nf c => forall st : State2,
             TrackMatcher.calls (snd (snd nf track (fst nf) st))
             = TrackMatcher.calls st ++ [c])
    strategies2
    [ {| call_query := TrackMatcher.exact_query (MixTrack.artist track)
                         (MixTrack.title track);
         call_limit := 5 |};
      {| call_query :=
           TrackNormalizer.normalize_for_search (MixTrack.artist track)
           ++ str " "
           ++ TrackNormalizer.normalize_for_search (MixTrack.title track);
         call_limit := 10 |};
      {| call_query :=
           str "artist:" ++ dquote
           ++ match TrackNormalizer.extract_artists (MixTrack.artist track) with
              | a :: _ => a
              | [] => MixTrack.artist track
              end
           ++ dquote ++ str " "
           ++ TrackNormalizer.normalize_for_search
                (fst (TrackNormalizer.extract_remix_info (MixTrack.title track)));
         call_limit := 10 |};
      {| call_query := TrackMatcher.title_only_query track;
         call_limit := 20 |} ].
Proof.
  unfold TrackMatcher.strategies.
  repeat apply Forall2_cons; [| | | |apply Forall2_nil]; intros st; cbn [fst snd].
  - exact (proj1 (search_then_evaluate search_backend self _ _ (fun l => l)
                    track _ st)).
  - exact (proj1 (search_then_evaluate search_backend self _ _ (fun l => l)
                    track _ st)).
  - exact (proj1 (search_then_evaluate search_backend self _ _ (fun l => l)
                    track _ st)).
  - exact (proj1 (search_then_evaluate search_backend self _ _
                    (TrackMatcher.rerank self track) track _ st)).
Qed.

(** X10. Whatever the searches answer, and also when one of them raises,
    [find_match] issues at least one search and at most four, and they
    are the first searches of a fixed plan that depends on the track
    alone: the exact query with limit 5, the two search-normalized texts
    joined by a blank with limit 10, the first extracted artist as a field
    followed by the search-normalized title without its remix marker with
    limit 10, and the title as a field with limit 20. *)
Theorem find_match_searches (track : MixTrack.t) (st : State2) :
  let plan :=
    [ {| call_query := TrackMatcher.exact_query (MixTrack.artist track)
                         (MixTrack.title track);
         call_limit := 5 |};
      {| call_query :=
           TrackNormalizer.normalize_for_search (MixTrack.artist track)
           ++ str " "
           ++ TrackNormalizer.normalize_for_search (MixTrack.title track);
         call_limit := 10 |};
      {| call_query :=
           str "artist:" ++ dquote
           ++ match TrackNormalizer.extract_artists (MixTrack.artist track) with
              | a :: _ => a
              | [] => MixTrack.artist track
              end
           ++ dquote ++ str " "
           ++ TrackNormalizer.normalize_for_search
                (fst (TrackNormalizer.extract_remix_info (MixTrack.title track)));
         call_limit := 10 |};
      {| call_query := TrackMatcher.title_only_query track;
         call_limit := 20 |} ] in
  exists k, 1 <= k <= 4 /\
    TrackMatcher.calls (snd (find_match2 track st))
    = TrackMatcher.calls st ++ firstn k plan.
Proof.
  intros plan. unfold TrackMatcher.find_match.
  destruct (@cascade_calls track _ _ (strategies_plan track) None st)
    as (k & Hk & H1 & Hc).
  exists k. split; [|exact Hc]. split.
  - apply H1. unfold TrackMatcher.strategies. discriminate.
  - exact Hk.
Qed.

(** *** Errors *)

Lemma cascade_raises track (pre post : list (TrackMatcher.strategy World Error))
  name f :
  forall best best1 (st st1 st2 : State2) e,
    passes2 pre best track st = Some (best1, st1) ->
    f track name st1 = (inl e, st2) ->
    cascade2 (pre ++ (name, f) :: post) best track st = (inl e, st2).
Proof.
  induction pre as [|[n g] pre IH]; intros best best1 st st1 st2 e Hp Hf.
  - cbn [TrackMatcher.passes] in Hp. inversion Hp; subst.
    cbn [app TrackMatcher.cascade]. unfold TrackMatcher.bind.
    rewrite Hf. reflexivity.
  - cbn [TrackMatcher.passes] in Hp. cbn [app TrackMatcher.cascade].
    unfold TrackMatcher.bind.
    destruct (g track n st) as [[e0|r0] st0]; [discriminate|].
    destruct (TrackMatcher.is_high r0); [discriminate|].
    eapply IH; eassumption.
Qed.

(** X11. [find_match] does not catch what a search raises: when the strategies
    before one ran without a high-confidence result and the search of
    that one raises, [find_match] raises the same error, in the state the
    search left, and no later strategy is tried. *)
Theorem find_match_propagates_error (track : MixTrack.t) (st : State2)
  pre name f post best1 (st1 st2 : State2) (e : Error) :
  strategies2 = pre ++ (name, f) :: post ->
  passes2 pre None track st = Some (best1, st1) ->
  f track name st1 = (inl e, st2) ->
  find_match2 track st = (inl e, st2) /\
  length (TrackMatcher.calls st2)
  = length (TrackMatcher.calls st) + length pre + 1.
Proof.
  intros Hs Hp Hf. split.
  - unfold TrackMatcher.find_match. rewrite Hs.
    eapply cascade_raises; eassumption.
  - assert (Hin : forall n g, In (n, g) (pre ++ (name, f) :: post) ->
                    In (n, g) strategies2)
      by (intros n g; rewrite Hs; exact (fun H => H)).
    pose proof (@passes_calls F U World Error search_backend self track pre
                  (fun n g H => Hin n g (in_or_app _ _ _ (or_introl H)))
                  None best1 st st1 Hp) as Hpre.
    destruct (@strategy_step F U World Error search_backend self name f track st1)
      as (q & lim & Hcalls & _).
    { apply Hin, in_or_app. right. left. reflexivity. }
    rewrite Hf in Hcalls. cbn [snd] in Hcalls.
    rewrite Hcalls, length_app, Hpre. reflexivity.
Qed.

Abbreviation raised2 := (raised_by_search search_backend).

Lemma search_then_evaluate_raises query limit
  (post : list SpotifyTrack.t -> list SpotifyTrack.t) track name (st st' : State2) e :
  TrackMatcher.bind (TrackMatcher.search_track search_backend query limit)
    (fun results => TrackMatcher.ret (evaluate2 track (post results) name)) st
  = (inl e, st') ->
  raised2 e st'.
Proof.
  unfold TrackMatcher.bind. rewrite search_track_run.
  destruct (fst (search_backend query limit (TrackMatcher.world st)))
    as [e0|res] eqn:E; intros H.
  - inversion H; subst. exists query, limit, (TrackMatcher.world st),
      (TrackMatcher.calls st). split; [exact E | reflexivity].
  - unfold TrackMatcher.ret in H. discriminate H.
Qed.

Lemma strategy_raises name f track (st st' : State2) e :
  In (name, f) strategies2 ->
  f track name st = (inl e, st') ->
  raised2 e st'.
Proof.
  intros Hin. unfold TrackMatcher.strategies in Hin. cbn [In] in Hin.
  destruct Hin as [H|[H|[H|[H|[]]]]]; injection H as <- <-.
  - exact (@search_then_evaluate_raises _ _ (fun l => l) track _ st st' e).
  - exact (@search_then_evaluate_raises _ _ (fun l => l) track _ st st' e).
  - exact (@search_then_evaluate_raises _ _ (fun l => l) track _ st st' e).
  - exact (@search_then_evaluate_raises _ _ (TrackMatcher.rerank self track)
             track _ st st' e).
Qed.

Lemma cascade_error (Q : Error -> State2 -> Prop) track :
  forall (l : list (TrackMatcher.strategy World Error)) best (st st' : State2) e,
    (forall name f s e' s', In (name, f) l ->
       f track name s = (inl e', s') -> Q e' s') ->
    cascade2 l best track st = (inl e, st') -> Q e st'.
Proof.
  induction l as [|[name f] rest IH]; intros best st st' e Hl H;
    cbn [TrackMatcher.cascade] in H.
  - unfold TrackMatcher.ret in H. discriminate H.
  - unfold TrackMatcher.bind in H.
    destruct (f track name st) as [[e1|r1] st1] eqn:E.
    + inversion H; subst. exact (Hl name f st e st' (or_introl eq_refl) E).
    + destruct (TrackMatcher.is_high r1).
      * unfold TrackMatcher.ret in H. discriminate H.
      * eapply IH; [|exact H].
        intros n g s e' s' Hin. apply Hl. right. exact Hin.
Qed.

(** X12. [find_match] raises nothing of its own: an error it ends with is the
    error that a search raised, and that search is the last one issued. *)
Theorem find_match_raises_only_from_search (track : MixTrack.t)
  (st st' : State2) (e : Error) :
  find_match2 track st = (inl e, st') ->
  exists query limit w cs,
    fst (search_backend query limit w) = inl e /\
    TrackMatcher.calls st' = cs ++ [{| call_query := query; call_limit := limit |}].
Proof.
  intros H. unfold TrackMatcher.find_match in H.
  apply (@cascade_error raised2 track strategies2 None st st' e);
    [|exact H].
  intros name f s e' s' Hin Hf. exact (strategy_raises _ _ Hin Hf).
Qed.

(** *** When no strategy has a high-confidence result *)

Lemma cascade_passes track (l : list (TrackMatcher.strategy World Error)) :
  forall best best1 (st st1 : State2),
    passes2 l best track st = Some (best1, st1) ->
    cascade2 l best track st
    = (inr (match best1 with
            | Some b => b
            | None => TrackMatcher._no_match track (str "none")
            end), st1).
Proof.
  induction l as [|[n g] l IH]; intros best best1 st st1 Hp;
    cbn [TrackMatcher.passes] in Hp; cbn [TrackMatcher.cascade].
  - inversion Hp; subst. reflexivity.
  - unfold TrackMatcher.bind.
    destruct (g track n st) as [[e0|r0] st0]; [discriminate|].
    destruct (TrackMatcher.is_high r0); [discriminate|].
    apply IH. exact Hp.
Qed.

Lemma passes_from_best track (l : list (TrackMatcher.strategy World Error)) :
  forall b best1 (st st1 : State2),
    passes2 l (Some b) track st = Some (best1, st1) ->
    exists r, best1 = Some r /\ (score b <= score r)%Q /\
      (TrackMatcher.is_high b = false -> TrackMatcher.is_high r = false).
Proof.
  induction l as [|[n g] l IH]; intros b best1 st st1 Hp;
    cbn [TrackMatcher.passes] in Hp.
  - inversion Hp; subst. exists b. split; [reflexivity|].
    split; [apply Qle_refl | exact (fun H => H)].
  - destruct (g track n st) as [[e0|r0] st0]; [discriminate|].
    destruct (TrackMatcher.is_high r0) eqn:Hh; [discriminate|].
    destruct (Qlt_bool_spec (score b) (score r0)) as [Hlt|Hge].
    + destruct (IH _ _ _ _ Hp) as (r & -> & Hle & Hhigh).
      exists r. split; [reflexivity|]. split.
      * apply Qle_trans with (score r0); [apply Qlt_le_weak; exact Hlt | exact Hle].
      * intros _. exact (Hhigh Hh).
    + exact (IH _ _ _ _ Hp).
Qed.

Lemma passes_head track n g (l : list (TrackMatcher.strategy World Error)) :
  forall best best1 (st st1 : State2),
    passes2 ((n, g) :: l) best track st = Some (best1, st1) ->
    exists r0 st0 r,
      g track n st = (inr r0, st0) /\ TrackMatcher.is_high r0 = false /\
      passes2 l (keep_best best r0) track st0 = Some (best1, st1) /\
      best1 = Some r /\ (score r0 <= score r)%Q /\
      ((forall b, best = Some b -> TrackMatcher.is_high b = false) ->
       TrackMatcher.is_high r = false).
Proof.
  intros best best1 st st1 Hp. cbn [TrackMatcher.passes] in Hp.
  destruct (g track n st) as [[e0|r0] st0]; [discriminate|].
  destruct (TrackMatcher.is_high r0) eqn:Hh; [discriminate|].
  fold (keep_best best r0) in Hp.
  exists r0, st0.
  destruct best as [b|]; cbn [keep_best] in *.
  - destruct (Qlt_bool_spec (score b) (score r0)) as [Hlt|Hge].
    + destruct (passes_from_best _ _ _ _ Hp) as (r & -> & Hle & Hhigh).
      exists r. repeat split; try assumption; try reflexivity.
      intros _. exact (Hhigh Hh).
    + destruct (passes_from_best _ _ _ _ Hp) as (r & -> & Hle & Hhigh).
      exists r. repeat split; try assumption; try reflexivity.
      * apply Qle_trans with (score b); assumption.
      * intros Hb. exact (Hhigh (Hb b eq_refl)).
  - destruct (passes_from_best _ _ _ _ Hp) as (r & -> & Hle & Hhigh).
    exists r. repeat split; try assumption; try reflexivity.
    intros _. exact (Hhigh Hh).
Qed.

Lemma passes_ge_all track (l : list (TrackMatcher.strategy World Error)) :
  forall best r (st st' : State2),
    passes2 l best track st = Some (Some r, st') ->
    forall pre name f post b1 (st1 st2 : State2) r1,
      l = pre ++ (name, f) :: post ->
      passes2 pre best track st = Some (b1, st1) ->
      f track name st1 = (inr r1, st2) ->
      (score r1 <= score r)%Q.
Proof.
  induction l as [|[n g] l IH]; intros best r st st' Hp pre name f post b1 st1 st2 r1
    Hl Hpre Hf.
  - destruct pre; discriminate Hl.
  - pose proof Hp as Hhead. apply passes_head in Hhead.
    destruct Hhead as (r0 & st0 & r' & Hg & Hh & Hrest & Hr & Hle & _).
    injection Hr as <-.
    destruct pre as [|[n' g'] pre].
    + cbn [app] in Hl. injection Hl as <- <- _.
      cbn [TrackMatcher.passes] in Hpre. injection Hpre as _ <-.
      rewrite Hg in Hf. injection Hf as <- _. exact Hle.
    + cbn [app] in Hl. injection Hl as <- <- Hl.
      cbn [TrackMatcher.passes] in Hpre. rewrite Hg, Hh in Hpre.
      fold (keep_best best r0) in Hpre.
      exact (IH _ _ _ _ Hrest pre name f post b1 st1 st2 r1 Hl Hpre Hf).
Qed.

(** X13. When no search raises and no strategy has a result of confidence
    EXACT or HIGH, [find_match] runs all four strategies and returns one
    of their results whose score is the largest; its confidence is not
    EXACT or HIGH either. *)
Theorem find_match_best_of (track : MixTrack.t) (st st' : State2)
  (best : option MatchResult) :
  passes2 strategies2 None track st = Some (best, st') ->
  exists r,
    best = Some r /\
    find_match2 track st = (inr r, st') /\
    confidence r <> EXACT /\ confidence r <> HIGH /\
    length (TrackMatcher.calls st') = length (TrackMatcher.calls st) + 4 /\
    forall pre name f post b1 (st1 st2 : State2) r1,
      strategies2 = pre ++ (name, f) :: post ->
      passes2 pre None track st = Some (b1, st1) ->
      f track name st1 = (inr r1, st2) ->
      (score r1 <= score r)%Q.
Proof.
  intros Hp.
  pose proof Hp as Hhead. unfold TrackMatcher.strategies in Hhead.
  apply passes_head in Hhead.
  destruct Hhead as (r0 & st0 & r & _ & _ & _ & -> & _ & Hhigh).
  exists r. split; [reflexivity|].
  split; [unfold TrackMatcher.find_match; apply cascade_passes in Hp;
          exact Hp|].
  assert (Hh : TrackMatcher.is_high r = false) by (apply Hhigh; discriminate).
  unfold TrackMatcher.is_high in Hh.
  split; [intros E; rewrite E in Hh; discriminate|].
  split; [intros E; rewrite E in Hh; discriminate|].
  split.
  - rewrite (@passes_calls F U World Error search_backend self track strategies2
               (fun n g H => H) None (Some r) st st' Hp).
    reflexivity.
  - intros pre name f post b1 st1 st2 r1. eapply passes_ge_all. exact Hp.
Qed.

End CascadeMore.

(** ** What a result of [find_match] is made of *)

Section Provenance.
Context {F : Fuzz} {U : Unicode}.
Variable World : Type.
Variable Error : Type.
Variable search_backend :
  text -> nat -> World -> (Error + list SpotifyTrack.t) * World.
Variable self : TrackMatcher.t.

Abbreviation State3 := (TrackMatcher.State World).
Abbreviation find_match3 := (TrackMatcher.find_match search_backend self).
Abbreviation evaluate3 := (TrackMatcher._evaluate_results self).
Abbreviation cascade3 := (TrackMatcher.cascade (Error:=Error) (World:=World)).
Abbreviation strategies3 := (TrackMatcher.strategies search_backend self).
Abbreviation scored3 track results :=
  (sort_desc (TrackMatcher.score_all self track results)).

Lemma score_match_bounds (sc : TrackScorer) m s :
  fuzz_bounded F -> (0 <= Scorer.score_match sc m s <= 100)%Q.
Proof.
  intros HB. destruct (components_bounds sc m s HB) as (Ha & Ht & Hr).
  rewrite score_match_sum. lra.
Qed.

Lemma scored_in track results c q :
  In (c, q) (scored3 track results) ->
  In c results /\ q = Scorer.score_match (TrackMatcher.scorer self) track c.
Proof.
  intros H.
  apply (Permutation_in _ (sort_desc_perm (TrackMatcher.score_all self track results)))
    in H.
  unfold TrackMatcher.score_all in H. apply in_map_iff in H.
  destruct H as (c0 & E & Hc0). injection E as <- <-. split; [exact Hc0 | reflexivity].
Qed.

Lemma scored_length track results :
  length (scored3 track results) = length results.
Proof.
  rewrite (Permutation_length
             (sort_desc_perm (TrackMatcher.score_all self track results))).
  unfold TrackMatcher.score_all. apply length_map.
Qed.

(** X14. Whether the best candidate is accepted or not, [_evaluate_results]
    reports the same candidates: the first five of the candidates sorted
    by score, the attached one first when there is one.  So it reports
    min(5, n) of the n candidates, each of them one of the candidates it
    was given, and an empty list gives the placeholder result. *)
Theorem _evaluate_results_reports (track : MixTrack.t)
  (results : list SpotifyTrack.t) (name : text) :
  let r := evaluate3 track results name in
  reported r = map fst (firstn 5 (scored3 track results)) /\
  length (reported r) = Nat.min 5 (length results) /\
  (forall c, In c (reported r) -> In c results) /\
  (results = [] -> r = TrackMatcher._no_match track name).
Proof.
  intros r.
  assert (E : reported r = map fst (firstn 5 (scored3 track results))).
  { unfold r, TrackMatcher._evaluate_results.
    destruct results as [|c0 t]; [reflexivity|].
    destruct (sort_desc _) as [|[bt bs] rest]; [reflexivity|].
    destruct (Qlt_bool bs _ && negb _); reflexivity. }
  split; [exact E|]. split; [|split].
  - rewrite E, length_map, length_firstn, scored_length. reflexivity.
  - intros c Hc. rewrite E in Hc. apply in_map_iff in Hc.
    destruct Hc as ([c' q] & <- & Hin). cbn [fst].
    apply (@scored_in track results c' q).
    rewrite <- (firstn_skipn 5 (scored3 track results)).
    apply in_or_app. left. exact Hin.
  - intros ->. reflexivity.
Qed.

Abbreviation well_formed3 := (well_formed self).

Lemma _evaluate_results_well_formed track results name :
  fuzz_bounded F ->
  well_formed3 track (evaluate3 track results name) /\
  search_strategy (evaluate3 track results name) = name.
Proof.
  intros HB. unfold TrackMatcher._evaluate_results.
  assert (Hno : well_formed3 track (TrackMatcher._no_match track name) /\
                search_strategy (TrackMatcher._no_match track name) = name).
  { unfold well_formed, TrackMatcher._no_match.
    cbn [mixesdb_track score spotify_track confidence alternatives
         search_strategy length].
    repeat split; try discriminate; try lia; unfold Qle; simpl; lia. }
  destruct results as [|c0 t]; [exact Hno|].
  destruct (sort_desc _) as [|[bt bs] rest] eqn:E; [exact Hno|].
  assert (Hb : (0 <= bs <= 100)%Q).
  { destruct (@scored_in track (c0 :: t) bt bs) as (_ & ->);
      [rewrite E; left; reflexivity|].
    apply score_match_bounds. exact HB. }
  assert (Hlen : length (map fst (firstn 4 rest)) <= 4).
  { rewrite length_map, length_firstn. lia. }
  destruct (Qlt_bool_spec bs (min_score (TrackMatcher.config self))) as [Hlt|Hge];
    cbn [andb].
  - destruct (include_low_confidence (TrackMatcher.config self)) eqn:Hinc;
      cbn [negb]; unfold well_formed;
      cbn [mixesdb_track score spotify_track confidence alternatives
           search_strategy].
    + split; [|reflexivity]. split; [reflexivity|]. split; [exact Hb|].
      split; [intros t0 _; split; [reflexivity | right; exact Hinc]|].
      split; [discriminate | cbn [skipn]; lia].
    + split; [|reflexivity]. split; [reflexivity|]. split; [exact Hb|].
      split; [discriminate|]. split; [reflexivity|].
      change (firstn 5 ((bt, bs) :: rest)) with ((bt, bs) :: firstn 4 rest).
      cbn [map length]. lia.
  - unfold well_formed;
      cbn [mixesdb_track score spotify_track confidence alternatives
           search_strategy].
    split; [|reflexivity]. split; [reflexivity|]. split; [exact Hb|].
    split; [intros t0 _; split; [reflexivity | left; exact Hge]|].
    split; [discriminate | cbn [skipn]; lia].
Qed.

Lemma cascade_result_started (P : MatchResult -> Prop) track :
  forall (l : list (TrackMatcher.strategy World Error)) best (st st' : State3) r,
    l <> [] \/ best <> None ->
    (forall name f s r', In (name, f) l -> fst (f track name s) = inr r' -> P r') ->
    (forall b, best = Some b -> P b) ->
    cascade3 l best track st = (inr r, st') -> P r.
Proof.
  induction l as [|[name f] rest IH];
    intros best st st' r Hstart Hl Hb H; cbn [TrackMatcher.cascade] in H.
  - unfold TrackMatcher.ret in H. inversion H; subst.
    destruct best as [b|]; [exact (Hb b eq_refl)|].
    destruct Hstart as [Hs|Hs]; exfalso; apply Hs; reflexivity.
  - unfold TrackMatcher.bind in H.
    destruct (f track name st) as [[e|r1] st1] eqn:E; [discriminate|].
    assert (P1 : P r1).
    { apply (Hl name f st r1); [left; reflexivity | rewrite E; reflexivity]. }
    destruct (TrackMatcher.is_high r1).
    + unfold TrackMatcher.ret in H. inversion H; subst. exact P1.
    + eapply IH; [| | |exact H].
      * right. destruct best as [b0|]; [destruct (Qlt_bool _ _)|]; discriminate.
      * intros n g s r' Hin. apply Hl. right. exact Hin.
      * intros b Hbest. destruct best as [b0|].
        -- destruct (Qlt_bool _ _); inversion Hbest; subst;
             [exact P1 | exact (Hb b eq_refl)].
        -- inversion Hbest; subst; exact P1.
Qed.

(** X15. A result that [find_match] returns is about the track it was asked
    for and carries the name of one of the four strategies, never the
    placeholder name; its score lies between 0 and 100; when a candidate
    is attached, the tier is the tier of the score and the score is not
    below [min_score] unless [include_low_confidence] is on; when none is
    attached the tier is NO_MATCH; and there are at most five
    alternates. *)
Theorem find_match_result_provenance (track : MixTrack.t) (st st' : State3)
  (r : MatchResult) :
  fuzz_bounded F ->
  find_match3 track st = (inr r, st') ->
  mixesdb_track r = track /\
  In (search_strategy r)
     [str "exact"; str "normalized"; str "artist_title"; str "title_only"] /\
  (0 <= score r <= 100)%Q /\
  (forall t, spotify_track r = Some t ->
     confidence r = from_score (score r) /\
     ((min_score (TrackMatcher.config self) <= score r)%Q \/
      include_low_confidence (TrackMatcher.config self) = true)) /\
  (spotify_track r = None -> confidence r = NO_MATCH) /\
  length (alternatives r) <= 5.
Proof.
  intros HB H. unfold TrackMatcher.find_match in H.
  set (names := [str "exact"; str "normalized"; str "artist_title";
                 str "title_only"]).
  assert (P : well_formed3 track r /\ In (search_strategy r) names).
  { apply (@cascade_result_started
             (fun r => well_formed3 track r /\ In (search_strategy r) names)
             track strategies3 None st st' r); [| | |exact H].
    - left. unfold TrackMatcher.strategies. discriminate.
    - intros name f s r' Hin Hr.
      destruct (@strategy_step F U World Error search_backend self
                  name f track s Hin) as (q & lim & _ & Hres).
      destruct (Hres r' Hr) as (results & ->).
      destruct (_evaluate_results_well_formed track results name HB) as (Hw & ->).
      split; [exact Hw|].
      unfold TrackMatcher.strategies in Hin. cbn [In] in Hin. unfold names.
      destruct Hin as [E|[E|[E|[E|[]]]]]; injection E as <- _; cbn [In]; tauto.
    - discriminate. }
  destruct P as ((H1 & H2 & H3 & H4 & H5) & Hn).
  repeat split; try assumption; try (apply H2); try (apply (H3 _ H0)).
Qed.

(** *** When nothing is found *)

Lemma search_then_evaluate_empty query limit
  (post : list SpotifyTrack.t -> list SpotifyTrack.t) track name (st : State3) :
  fst (search_backend query limit (TrackMatcher.world st)) = inr [] ->
  post [] = [] ->
  TrackMatcher.bind (TrackMatcher.search_track search_backend query limit)
    (fun results => TrackMatcher.ret (evaluate3 track (post results) name)) st
  = (inr (TrackMatcher._no_match track name),
     {| TrackMatcher.world :=
          snd (search_backend query limit (TrackMatcher.world st));
        TrackMatcher.calls :=
          TrackMatcher.calls st
          ++ [{| call_query := query; call_limit := limit |}] |}).
Proof.
  intros Hb Hpost. unfold TrackMatcher.bind. rewrite search_track_run, Hb.
  unfold TrackMatcher.ret. rewrite Hpost. reflexivity.
Qed.

(** X16. When every search comes back empty, [find_match] issues all four
    searches and returns the placeholder result under the name of the
    first strategy: a later result replaces the best one only when its
    score is strictly larger, and all four scores are 0. *)
Theorem find_match_nothing_found (track : MixTrack.t) (st : State3) :
  (forall query limit w, fst (search_backend query limit w) = inr []) ->
  fst (find_match3 track st) = inr (TrackMatcher._no_match track (str "exact")) /\
  length (TrackMatcher.calls (snd (find_match3 track st)))
  = length (TrackMatcher.calls st) + 4.
Proof.
  intros Hempty.
  assert (E : exists st4,
             find_match3 track st
             = (inr (TrackMatcher._no_match track (str "exact")), st4) /\
             length (TrackMatcher.calls st4) = length (TrackMatcher.calls st) + 4);
    [|destruct E as (st4 & -> & Hlen); split; [reflexivity | exact Hlen]].
  eexists. split; [|shelve].
  unfold TrackMatcher.find_match, TrackMatcher.strategies.
  cbn [TrackMatcher.cascade].
  unfold TrackMatcher._exact_search, TrackMatcher.search_track_exact,
    TrackMatcher._normalized_search, TrackMatcher._artist_title_search,
    TrackMatcher._title_only_search.
  cbv zeta.
  unfold TrackMatcher.bind at 1.
  rewrite (@search_then_evaluate_empty _ _ (fun l => l) track _ st
             (Hempty _ _ _) eq_refl).
  cbn [TrackMatcher.is_high TrackMatcher._no_match confidence].
  unfold TrackMatcher.bind at 1.
  match goal with
  | |- context [TrackMatcher.bind _ _ ?s] =>
      rewrite (@search_then_evaluate_empty _ _ (fun l => l) track _ s
                 (Hempty _ _ _) eq_refl)
  end.
  cbn [TrackMatcher.is_high TrackMatcher._no_match confidence score].
  change (Qlt_bool 0 0) with false. cbv iota.
  unfold TrackMatcher.bind at 1.
  match goal with
  | |- context [TrackMatcher.bind _ _ ?s] =>
      rewrite (@search_then_evaluate_empty _ _ (fun l => l) track _ s
                 (Hempty _ _ _) eq_refl)
  end.
  cbn [TrackMatcher.is_high TrackMatcher._no_match confidence score].
  change (Qlt_bool 0 0) with false. cbv iota.
  unfold TrackMatcher.bind at 1.
  match goal with
  | |- context [TrackMatcher.bind _ _ ?s] =>
      rewrite (@search_then_evaluate_empty _ _ (TrackMatcher.rerank self track)
                 track _ s (Hempty _ _ _) eq_refl)
  end.
  cbn [TrackMatcher.is_high TrackMatcher._no_match confidence score].
  change (Qlt_bool 0 0) with false. cbv iota.
  unfold TrackMatcher.ret. reflexivity.
  Unshelve.
  cbn [TrackMatcher.calls]. rewrite !length_app. cbn [length]. lia.
Qed.

End Provenance.

(** ** Batches *)

Lemma batches_concat (b : nat) :
  forall k (l : list text),
    length l <= k * b ->
    concat (map (fun i => firstn b (skipn i l)) (map (fun j => j * b) (seq 0 k)))
    = l.
Proof.
  induction k as [|k IH]; intros l Hl.
  - destruct l; [reflexivity | cbn [length] in Hl; lia].
  - cbn [seq map concat]. rewrite <- seq_shift, !map_map.
    change (skipn (0 * b) l) with l.
    transitivity (firstn b l ++ skipn b l); [|apply firstn_skipn]. f_equal.
    etransitivity; [|apply (IH (skipn b l)); rewrite length_skipn; lia].
    rewrite map_map. f_equal. apply map_ext. intros j.
    rewrite skipn_skipn. f_equal. f_equal. lia.
Qed.

Lemma ceil_div_bounds (n b : nat) :
  0 < b -> n <= (n + b - 1) / b * b /\ ((n + b - 1) / b) * b < n + b.
Proof.
  intros Hb.
  pose proof (Nat.div_mod_eq (n + b - 1) b) as E.
  pose proof (Nat.mod_upper_bound (n + b - 1) b) as Hm.
  nia.
Qed.

(** X17. [add_tracks_to_playlist] hands every URI to the service once and in
    order: the batches joined together are the list it was given.  Every
    batch holds at least one and at most 100 URIs, every batch but the
    last holds exactly 100, and the number of batches is the length
    divided by 100, rounded up; an empty list makes no call. *)
Theorem add_tracks_to_playlist_batches (track_uris : list text) :
  let batches := SpotifyClient.add_tracks_to_playlist track_uris in
  concat batches = track_uris /\
  length batches = (length track_uris + 99) / 100 /\
  Forall (fun batch => 1 <= length batch <= 100) batches /\
  (forall i, S i < length batches -> length (nth i batches []) = 100) /\
  (track_uris = [] -> batches = []).
Proof.
  intros batches. unfold batches, SpotifyClient.add_tracks_to_playlist,
    SpotifyClient.range, SpotifyClient.batch_size.
  set (n := length track_uris).
  change (n + 100 - 1) with (n + 100 - 1).
  replace (n + 100 - 1) with (n + 99) by lia.
  destruct (@ceil_div_bounds n 100 ltac:(lia)) as (Hlo & Hhi).
  replace (n + 100 - 1) with (n + 99) in Hlo, Hhi by lia.
  set (k := (n + 99) / 100) in *.
  split; [apply batches_concat; exact Hlo|].
  split; [rewrite !length_map, length_seq; reflexivity|].
  split; [|split].
  - apply Forall_forall. intros batch Hin.
    apply in_map_iff in Hin. destruct Hin as (i & <- & Hi).
    apply in_map_iff in Hi. destruct Hi as (j & <- & Hj).
    apply in_seq in Hj. rewrite length_firstn, length_skipn. fold n. lia.
  - intros i Hi. rewrite !length_map, length_seq in Hi.
    rewrite map_map.
    rewrite (nth_indep _ [] (firstn 100 (skipn (0 * 100) track_uris)))
      by (rewrite length_map, length_seq; lia).
    rewrite (map_nth (fun j => firstn 100 (skipn (j * 100) track_uris))).
    rewrite seq_nth by lia.
    rewrite length_firstn, length_skipn. fold n. cbn [Nat.add]. lia.
  - intros ->. reflexivity.
Qed.

(** ** The engine *)

Lemma filter_partition_length (A : Type) (p : A -> bool) (l : list A) :
  length (filter p l) + length (filter (fun x => negb (p x)) l) = length l.
Proof.
  induction l as [|a t IH]; [reflexivity|].
  cbn [filter]. destruct (p a); cbn [negb length]; lia.
Qed.

(** X18. The match rate is a proportion: it lies between 0 and 1, and it is 0
    when there is no track at all. *)
Theorem match_rate_proportion (self : SyncResult.t) :
  (0 <= SyncResult.match_rate self <= 1)%Q /\
  (SyncResult.total_tracks self = 0 -> SyncResult.match_rate self = 0%Q).
Proof.
  unfold SyncResult.match_rate.
  destruct (Nat.eqb_spec (SyncResult.total_tracks self) 0) as [E|NE].
  - split; [split; unfold Qle; simpl; lia | reflexivity].
  - split; [|intros E; contradiction].
    assert (Hm : length (SyncResult.matched_tracks self)
                 <= SyncResult.total_tracks self)
      by (unfold SyncResult.total_tracks; lia).
    set (m := length (SyncResult.matched_tracks self)) in *.
    set (t := SyncResult.total_tracks self) in *.
    assert (Ht : (0 < inject_Z (Z.of_nat t))%Q)
      by (unfold Qlt; simpl; lia).
    split.
    + apply Qle_shift_div_l; [exact Ht|]. rewrite Qmult_0_l.
      unfold Qle; simpl; lia.
    + apply Qle_shift_div_r; [exact Ht|]. rewrite Qmult_1_l.
      unfold Qle; simpl; lia.
Qed.

Section EngineFacts.
Context {F : Fuzz} {U : Unicode}.
Variable World : Type.
Variable Error : Type.
Variable search_backend :
  text -> nat -> World -> (Error + list SpotifyTrack.t) * World.
Variable fetch_mix : text -> World -> (Error + Mix.t) * World.
Variable create_playlist :
  Mix.t -> list MatchResult -> option text -> option bool ->
  World -> (Error + SpotifyPlaylist.t) * World.
Variable describe : Error -> text.
Variable matcher : TrackMatcher.t.

Abbreviation State4 := (TrackMatcher.State World).
Abbreviation find_match4 := (TrackMatcher.find_match search_backend matcher).
Abbreviation match_loop4 := (SyncEngine.match_loop search_backend matcher).
Abbreviation match_tracks4 := (SyncEngine.match_tracks search_backend matcher).
Abbreviation sync4 :=
  (SyncEngine.sync search_backend fetch_mix create_playlist describe matcher).
Abbreviation raised4 := (raised_by_search search_backend).

Lemma find_match_about track (st st' : State4) r :
  find_match4 track st = (inr r, st') ->
  mixesdb_track r = track /\ attached_iff_matched r.
Proof.
  intros H. unfold TrackMatcher.find_match in H.
  apply (@cascade_result World Error
           (fun r => mixesdb_track r = track /\ attached_iff_matched r) track
           (conj eq_refl (_no_match_invariant track (str "none")))
           (TrackMatcher.strategies search_backend matcher) None st st' r);
    [| |exact H].
  - intros name f s r' Hin Hr.
    destruct (@strategy_step F U World Error search_backend matcher
                name f track s Hin) as (q & lim & _ & Hres).
    destruct (Hres r' Hr) as (results & ->).
    split; [|apply _evaluate_results_invariant].
    unfold TrackMatcher._evaluate_results.
    destruct results as [|c0 t]; [reflexivity|].
    destruct (sort_desc _) as [|[bt bs] rest]; [reflexivity|].
    destruct (Qlt_bool bs _ && negb _); reflexivity.
  - discriminate.
Qed.

Lemma find_match_calls_count track (st : State4) :
  exists k, 1 <= k <= 4 /\
    length (TrackMatcher.calls (snd (find_match4 track st)))
    = length (TrackMatcher.calls st) + k.
Proof.
  unfold TrackMatcher.find_match.
  destruct (@cascade_calls World Error track _ _
              (@strategies_plan F U World Error search_backend matcher track)
              None st) as (k & Hk & H1 & Hc).
  assert (H4 : k <= 4) by exact Hk.
  exists k. split.
  - split; [apply H1; unfold TrackMatcher.strategies; discriminate | exact H4].
  - rewrite Hc, length_app, length_firstn. cbn [length]. lia.
Qed.

Lemma match_loop_results tracks :
  forall results (st st' : State4) rs,
    match_loop4 tracks results st = (inr rs, st') ->
    exists new,
      rs = results ++ new /\
      map mixesdb_track new = tracks /\
      Forall attached_iff_matched new /\
      length tracks <= length (TrackMatcher.calls st') - length (TrackMatcher.calls st)
        <= 4 * length tracks /\
      length (TrackMatcher.calls st) <= length (TrackMatcher.calls st').
Proof.
  induction tracks as [|track rest IH]; intros results st st' rs H;
    cbn [SyncEngine.match_loop] in H.
  - unfold TrackMatcher.ret in H. inversion H; subst.
    exists []. rewrite app_nil_r. cbn [map length].
    repeat split; try constructor; lia.
  - unfold TrackMatcher.bind in H.
    destruct (find_match_calls_count track st) as (k & Hk & Hcalls).
    destruct (find_match4 track st) as [[e|r] st1] eqn:E; [discriminate|].
    cbn [snd] in Hcalls.
    destruct (find_match_about _ _ E) as (Hm & Hinv).
    destruct (IH _ _ _ _ H) as (new & -> & Hmap & Hall & Hn & Hmono).
    exists (r :: new). rewrite <- app_assoc. cbn [app map length].
    split; [reflexivity|]. split; [rewrite Hm, Hmap; reflexivity|].
    split; [constructor; assumption|]. lia.
Qed.

(** X19. [match_tracks] answers with one result per track of the mix, in the
    order of the tracks, each of them about its track and with a candidate
    attached exactly when its tier is not NO_MATCH; it issues at least one
    search per track and at most four. *)
Theorem match_tracks_results (mix : Mix.t) (st st' : State4)
  (results : list MatchResult) :
  match_tracks4 mix st = (inr results, st') ->
  map mixesdb_track results = Mix.tracks mix /\
  length results = Mix.track_count mix /\
  Forall (fun r => is_some (spotify_track r) = true <-> confidence r <> NO_MATCH)
         results /\
  length (TrackMatcher.calls st) + Mix.track_count mix
    <= length (TrackMatcher.calls st')
    <= length (TrackMatcher.calls st) + 4 * Mix.track_count mix.
Proof.
  intros H. unfold SyncEngine.match_tracks in H.
  destruct (match_loop_results _ _ _ H) as (new & -> & Hmap & Hall & Hn & Hmono).
  cbn [app]. unfold Mix.track_count.
  split; [exact Hmap|].
  split; [rewrite <- Hmap, length_map; reflexivity|].
  split; [exact Hall|]. lia.
Qed.


Lemma matched_attached (r : MatchResult) :
  attached_iff_matched r -> matched r = is_some (spotify_track r).
Proof.
  unfold attached_iff_matched, matched. intros I.
  destruct (is_some (spotify_track r)); cbn [andb]; [|reflexivity].
  destruct (confidence r); try reflexivity.
  exfalso. exact (proj1 I eq_refl eq_refl).
Qed.

Lemma track_uris_attached (rs : list MatchResult) :
  Forall (fun r => is_some (spotify_track r) = true) rs ->
  length (SyncEngine.track_uris rs) = length rs.
Proof.
  induction 1 as [|r rs Hr _ IH]; [reflexivity|].
  unfold SyncEngine.track_uris in *. cbn [flat_map].
  destruct (spotify_track r); [|discriminate Hr].
  cbn [app length]. rewrite IH. reflexivity.
Qed.

Lemma track_uris_detached (rs : list MatchResult) :
  Forall (fun r => spotify_track r = None) rs ->
  SyncEngine.track_uris rs = [].
Proof.
  induction 1 as [|r rs Hr _ IH]; [reflexivity|].
  unfold SyncEngine.track_uris in *. cbn [flat_map]. rewrite Hr, IH. reflexivity.
Qed.

(** X20. The bookkeeping of [sync].  In the result of a sync, the matched and
    the unmatched results together are as many as the tracks of the mix;
    every matched result has a candidate attached and every unmatched one
    has none, so the playlist gets one URI for each matched result and no
    found track is left out; and the result is a success only outside a
    dry run and with at least one matched track. *)
Theorem sync_bookkeeping (url : text) (playlist_name : option text)
  (public : option bool) (dry_run : bool) (st st' : State4)
  (res : SyncResult.t) :
  sync4 url playlist_name public dry_run st = (inr res, st') ->
  SyncResult.total_tracks res = Mix.track_count (SyncResult.mix res) /\
  Forall (fun r => matched r = true /\ is_some (spotify_track r) = true)
         (SyncResult.matched_tracks res) /\
  Forall (fun r => matched r = false /\ spotify_track r = None)
         (SyncResult.unmatched_tracks res) /\
  length (SyncEngine.track_uris (SyncResult.matched_tracks res))
  = length (SyncResult.matched_tracks res) /\
  SyncEngine.track_uris (SyncResult.unmatched_tracks res) = [] /\
  (SyncResult.success res = true ->
   dry_run = false /\ SyncResult.matched_tracks res <> []).
Proof.
  intros H.
  assert (G : SyncResult.total_tracks res = Mix.track_count (SyncResult.mix res) /\
              Forall (fun r => matched r = true /\ is_some (spotify_track r) = true)
                     (SyncResult.matched_tracks res) /\
              Forall (fun r => matched r = false /\ spotify_track r = None)
                     (SyncResult.unmatched_tracks res) /\
              (SyncResult.success res = true ->
               dry_run = false /\ SyncResult.matched_tracks res <> [])).
  { unfold SyncEngine.sync in H.
    destruct (SyncEngine.lift (fetch_mix url) st) as [[e|mix] st1].
    { inversion H; subst. unfold SyncResult.total_tracks, Mix.track_count,
        SyncResult.success.
      cbn [SyncResult.mix SyncResult.matched_tracks SyncResult.unmatched_tracks
           SyncResult.error SyncResult.playlist Mix.tracks length is_some
           negb andb].
      repeat split; try constructor; discriminate. }
    destruct (match_tracks4 mix st1) as [[e|results] st2] eqn:E; [discriminate|].
    unfold SyncEngine.match_tracks in E.
    destruct (match_loop_results _ _ _ E) as (new & -> & Hmap & Hall & _).
    cbn [app] in H.
    assert (Htot : length (filter matched new)
                   + length (filter (fun r => negb (matched r)) new)
                   = length (Mix.tracks mix)).
    { rewrite filter_partition_length, <- Hmap, length_map. reflexivity. }
    assert (Hm : Forall (fun r => matched r = true /\
                                  is_some (spotify_track r) = true)
                        (filter matched new)).
    { apply Forall_forall. intros r Hr. apply filter_In in Hr.
      destruct Hr as (Hin & Hr). split; [exact Hr|].
      rewrite <- (matched_attached (proj1 (Forall_forall _ _) Hall r Hin)).
      exact Hr. }
    assert (Hu : Forall (fun r => matched r = false /\ spotify_track r = None)
                        (filter (fun r => negb (matched r)) new)).
    { apply Forall_forall. intros r Hr. apply filter_In in Hr.
      destruct Hr as (Hin & Hr). apply negb_true_iff in Hr.
      split; [exact Hr|].
      rewrite (matched_attached (proj1 (Forall_forall _ _) Hall r Hin)) in Hr.
      destruct (spotify_track r); [discriminate Hr | reflexivity]. }
    destruct dry_run.
    { inversion H; subst. unfold SyncResult.total_tracks, Mix.track_count,
        SyncResult.success.
      cbn [SyncResult.mix SyncResult.matched_tracks SyncResult.unmatched_tracks
           SyncResult.error SyncResult.playlist is_some negb andb].
      split; [exact Htot|]. split; [exact Hm|]. split; [exact Hu|]. discriminate. }
    destruct (filter matched new) as [|m0 ms] eqn:Ef.
    { inversion H; subst. unfold SyncResult.total_tracks, Mix.track_count,
        SyncResult.success.
      cbn [SyncResult.mix SyncResult.matched_tracks SyncResult.unmatched_tracks
           SyncResult.error SyncResult.playlist is_some negb andb].
      split; [exact Htot|]. split; [exact Hm|]. split; [exact Hu|]. discriminate. }
    destruct (SyncEngine.lift _ st2) as [[e|p] st3];
      inversion H; subst; unfold SyncResult.total_tracks, Mix.track_count,
        SyncResult.success;
      cbn [SyncResult.mix SyncResult.matched_tracks SyncResult.unmatched_tracks
           SyncResult.error SyncResult.playlist is_some negb andb].
    - split; [exact Htot|]. split; [exact Hm|]. split; [exact Hu|]. discriminate.
    - split; [exact Htot|]. split; [exact Hm|]. split; [exact Hu|].
      intros _. split; [reflexivity | discriminate]. }
  destruct G as (G1 & G2 & G3 & G4).
  split; [exact G1|]. split; [exact G2|]. split; [exact G3|].
  split; [|split; [|exact G4]].
  - apply track_uris_attached. revert G2. apply Forall_impl. intros r Hr. apply Hr.
  - apply track_uris_detached. revert G3. apply Forall_impl. intros r Hr. apply Hr.
Qed.


End EngineFacts.

(** ** The additional properties on concrete inputs *)

Lemma normalize_shape_witness :
  let y := @TrackNormalizer.normalize ascii_unicode
             (str "  The  Chemical   Brothers 'Live' ") in
  Forall (fun c => is_ascii c = true /\ is_quote c = false) y /\
  Forall (fun c => is_space c = true -> c = " "%char) y /\
  contains (str "  ") y = false /\
  strip y = y.
Proof.
  exact (@normalize_shape ascii_unicode
           (str "  The  Chemical   Brothers 'Live' ") ascii_unicode_lawful).
Defined.

Lemma normalize_for_search_shape_witness :
  let y := @TrackNormalizer.normalize_for_search ascii_unicode
             (str "Opus (Claptone Remix) [Pryda]") in
  Forall (fun c => is_ascii c = true
                   /\ (is_word c = true \/ c = " "%char)) y /\
  contains (str "  ") y = false /\
  strip y = y.
Proof.
  exact (@normalize_for_search_shape ascii_unicode
           (str "Opus (Claptone Remix) [Pryda]") ascii_unicode_lawful).
Defined.

Lemma extract_artists_pieces_witness :
  let a := str "pharrell" in
  a <> [] /\ strip a = a /\
  Forall (fun c => is_upper c = false) a /\
  Forall (fun c => c <> ","%char /\ c <> "&"%char /\ c <> "+"%char) a.
Proof.
  apply (@extract_artists_pieces (str "Daft Punk & Pharrell , Nile Rodgers")
           (str "pharrell")).
  vm_compute. right. left. reflexivity.
Defined.

Lemma _extract_remix_tag_shape_witness :
  let tag := str "claptone remix" in
  tag <> [] /\ strip tag = tag /\ Forall (fun c => is_upper c = false) tag.
Proof.
  apply (@_extract_remix_tag_shape (str "Opus (Claptone Remix)")
           (str "claptone remix")).
  vm_compute. reflexivity.
Defined.

Lemma one_sided_tag_caps_score_witness :
  let m := mix_track "Eric Prydz" "Opus (Claptone Remix)" in
  let s := catalogue_track "Eric Prydz" "Opus" in
  (@Scorer.score_match indel_fuzz ascii_unicode default_scorer m s <= 70)%Q /\
  from_score (@Scorer.score_match indel_fuzz ascii_unicode default_scorer m s)
  = LOW.
Proof.
  intros m s.
  apply (@one_sided_tag_caps_score indel_fuzz ascii_unicode default_scorer m s
           indel_fuzz_bounded).
  vm_compute. reflexivity.
Defined.

Lemma uncovered_artist_caps_score_witness :
  let m := mix_track "Daft Punk & Pharrell & Nile Rodgers" "Get Lucky" in
  let q := @Scorer.score_match indel_fuzz ascii_unicode default_scorer
             m get_lucky in
  (q <= 88)%Q /\ (from_score q = MEDIUM \/ from_score q = LOW).
Proof.
  intros m q.
  apply (@uncovered_artist_caps_score indel_fuzz ascii_unicode default_scorer
           m get_lucky (str "pharrell") indel_fuzz_bounded).
  - vm_compute. right. left. reflexivity.
  - intros c Hc. cbn [SpotifyTrack.artists get_lucky In] in Hc.
    destruct Hc as [<-|[<-|[<-|[]]]]; vm_compute; reflexivity.
Defined.

(** The first search raises: [find_match] raises after one search. *)
Lemma find_match_propagates_error_witness :
  let track := mix_track "Avicii" "Levels" in
  let st2 := snd (@TrackMatcher._exact_search indel_fuzz ascii_unicode unit text
                    failing_backend default_matcher track (str "exact") start) in
  @TrackMatcher.find_match indel_fuzz ascii_unicode unit text failing_backend
    default_matcher track start
  = (inl (str "Search failed"), st2) /\
  length (TrackMatcher.calls st2) = 1.
Proof.
  intros track st2.
  exact (@find_match_propagates_error indel_fuzz ascii_unicode unit text
           failing_backend default_matcher track start
           [] (str "exact")
           (@TrackMatcher._exact_search indel_fuzz ascii_unicode unit text
              failing_backend default_matcher)
           _ None start st2 (str "Search failed")
           eq_refl eq_refl eq_refl).
Defined.

Lemma find_match_raises_only_from_search_witness :
  exists query limit w cs,
    fst (failing_backend query limit w) = inl (str "Search failed") /\
    TrackMatcher.calls
      (snd (@TrackMatcher.find_match indel_fuzz ascii_unicode unit text
              failing_backend default_matcher (mix_track "Avicii" "Levels") start))
    = cs ++ [{| call_query := query; call_limit := limit |}].
Proof.
  apply (@find_match_raises_only_from_search indel_fuzz ascii_unicode unit text
           failing_backend default_matcher (mix_track "Avicii" "Levels") start).
  vm_compute. reflexivity.
Defined.

(** With [min_score] at 100 and a candidate that scores 2860/29, no
    strategy has a high-confidence result and all four run. *)
Lemma find_match_best_of_witness :
  let track := mix_track "Avicii" "Levels Of Love" in
  let catalogue := [catalogue_track "Avicii" "Levels Of Loves"] in
  exists r,
    fst (@TrackMatcher.find_match indel_fuzz ascii_unicode unit text
           (catalogue_backend catalogue) strict_matcher track start) = inr r /\
    confidence r <> EXACT /\ confidence r <> HIGH.
Proof.
  intros track catalogue.
  edestruct (@find_match_best_of indel_fuzz ascii_unicode unit text
               (catalogue_backend catalogue) strict_matcher track start)
    as (r & _ & Hfm & Hc1 & Hc2 & _).
  - vm_compute. reflexivity.
  - exists r. rewrite Hfm. split; [reflexivity|]. split; assumption.
Defined.

Lemma find_match_result_provenance_witness :
  let r := @TrackMatcher._evaluate_results indel_fuzz ascii_unicode default_matcher
             (mix_track "Avicii" "Levels") [catalogue_track "Avicii" "Levels"]
             (str "exact") in
  mixesdb_track r = mix_track "Avicii" "Levels" /\
  In (search_strategy r)
     [str "exact"; str "normalized"; str "artist_title"; str "title_only"] /\
  (0 <= score r <= 100)%Q /\
  (forall t, spotify_track r = Some t ->
     confidence r = from_score (score r) /\
     ((min_score (TrackMatcher.config default_matcher) <= score r)%Q \/
      include_low_confidence (TrackMatcher.config default_matcher) = true)) /\
  (spotify_track r = None -> confidence r = NO_MATCH) /\
  length (alternatives r) <= 5.
Proof.
  intros r.
  apply (@find_match_result_provenance indel_fuzz ascii_unicode unit text
           (catalogue_backend [catalogue_track "Avicii" "Levels"])
           default_matcher (mix_track "Avicii" "Levels") start
           (snd (@TrackMatcher.find_match indel_fuzz ascii_unicode unit text
                   (catalogue_backend [catalogue_track "Avicii" "Levels"])
                   default_matcher (mix_track "Avicii" "Levels") start))
           r indel_fuzz_bounded).
  vm_compute. reflexivity.
Defined.

Lemma find_match_nothing_found_witness :
  let track := mix_track "Avicii" "Levels" in
  let out := @TrackMatcher.find_match indel_fuzz ascii_unicode unit text
               (catalogue_backend []) default_matcher track start in
  fst out = inr (@TrackMatcher._no_match track (str "exact")) /\
  length (TrackMatcher.calls (snd out)) = 4.
Proof.
  intros track out.
  apply (@find_match_nothing_found indel_fuzz ascii_unicode unit text
           (catalogue_backend []) default_matcher track start).
  intros query limit w. unfold catalogue_backend. cbn [fst].
  destruct limit; reflexivity.
Defined.

Lemma match_tracks_results_witness :
  let out := @SyncEngine.match_tracks indel_fuzz ascii_unicode unit text
               (catalogue_backend [catalogue_track "Avicii" "Levels"])
               default_matcher levels_mix start in
  exists results,
    fst out = inr results /\
    map mixesdb_track results = Mix.tracks levels_mix /\
    length results = 2 /\
    2 <= length (TrackMatcher.calls (snd out)) <= 8.
Proof.
  intros out.
  destruct out as [[e|results] st'] eqn:E; [vm_compute in E; discriminate E|].
  exists results. split; [reflexivity|].
  destruct (@match_tracks_results indel_fuzz ascii_unicode unit text
              (catalogue_backend [catalogue_track "Avicii" "Levels"])
              default_matcher levels_mix start st' results E)
    as (H1 & H2 & _ & H4).
  split; [exact H1|]. split; [exact H2|]. exact H4.
Defined.

Lemma sync_bookkeeping_witness :
  let out := @SyncEngine.sync indel_fuzz ascii_unicode unit text
               (catalogue_backend [catalogue_track "Avicii" "Levels"])
               (fetched levels_mix) created (fun e => e) default_matcher
               (str "https://www.mixesdb.com/w/2011-10-28_-_Avicii_-_Levels")
               None None false start in
  exists res,
    fst out = inr res /\
    SyncResult.total_tracks res = 2 /\
    length (SyncEngine.track_uris (SyncResult.matched_tracks res))
    = length (SyncResult.matched_tracks res).
Proof.
  intros out.
  destruct out as [[e|res] st'] eqn:E; [vm_compute in E; discriminate E|].
  exists res. split; [reflexivity|].
  destruct (@sync_bookkeeping indel_fuzz ascii_unicode unit text
              (catalogue_backend [catalogue_track "Avicii" "Levels"])
              (fetched levels_mix) created (fun e => e) default_matcher
              (str "https://www.mixesdb.com/w/2011-10-28_-_Avicii_-_Levels")
              None None false start st' res E)
    as (H1 & _ & _ & H4 & _).
  split; [|exact H4].
  rewrite H1. revert E. vm_compute. intros E. injection E as <- _. reflexivity.
Defined.


Lemma title_length_gap_caps_score_witness :
  let m := mix_track "Avicii" "Levels" in
  let s := catalogue_track "Avicii" "Levels Of Love And Light" in
  (@Scorer.title_component indel_fuzz ascii_unicode default_scorer m s <= 80)%Q /\
  (@Scorer.score_match indel_fuzz ascii_unicode default_scorer m s <= 92)%Q /\
  from_score (@Scorer.score_match indel_fuzz ascii_unicode default_scorer m s)
  <> EXACT.
Proof.
  intros m s.
  apply (@title_length_gap_caps_score indel_fuzz ascii_unicode default_scorer m s
           indel_fuzz_bounded).
  apply Nat.ltb_lt. vm_compute. reflexivity.
Defined.

Lemma no_artist_caps_score_witness :
  let m := mix_track "Avicii" "Levels" in
  let s := catalogue_track "Eric Prydz" "Levels" in
  (@Scorer.artist_component indel_fuzz ascii_unicode default_scorer m s == 0)%Q /\
  (@Scorer.score_match indel_fuzz ascii_unicode default_scorer m s <= 70)%Q /\
  from_score (@Scorer.score_match indel_fuzz ascii_unicode default_scorer m s)
  = LOW.
Proof.
  intros m s.
  apply (@no_artist_caps_score indel_fuzz ascii_unicode default_scorer m s
           indel_fuzz_bounded).
  intros a c Ha Hc.
  vm_compute in Ha. destruct Ha as [<-|[]].
  cbn [SpotifyTrack.artists s catalogue_track In] in Hc. destruct Hc as [<-|[]].
  vm_compute. reflexivity.
Defined.
